(** * protonmail-cli: message-reference resolution and mailbox actions

    A shallow embedding of the reference resolver ([_resolve_refs]), of the
    inline resolution of [read], and of the action commands [delete],
    [archive], [spam], [star] and [unread] of [protonmail_cli/cli.py],
    together with the label table [SYSTEM_LABELS] of
    [protonmail_cli/formatting.py].

    The Proton Mail client library is an external collaborator: it is an
    interface ([ProtonMail]) over an abstract world, and every command is
    a computation that threads the world, appends the collaborator calls
    it issues to a log, and either returns or raises. *)

From Stdlib Require Import Arith NArith ZArith List String Ascii Bool Lia.
From Stdlib Require Import DecimalString.
From Stdlib Require DecimalFacts DecimalPos DecimalN.
Import ListNotations.
Local Open Scope N_scope.

(** ** Python values used by the code *)

(** A Python [str] is a sequence of Unicode code points. *)
Definition str := list N.

(** A literal of the source, written in ASCII. *)
Definition lit (s : string) : str := map N_of_ascii (list_ascii_of_string s).

(** The empty string. *)
Definition empty_str : str := [].

(** [len] of a string or of a list. *)
Definition len {A : Type} (l : list A) : N := N.of_nat (List.length l).

(** [str(n)] for a non-negative integer. *)
Definition str_of_int (n : N) : str := lit (NilEmpty.string_of_uint (N.to_uint n)).

Module Unicode.

(** The code points of the digit zero of every decimal script (general
    category Nd, Unicode 14.0 as shipped with CPython 3.11); the nine
    code points after each one are the digits one to nine.  The general
    results below do not depend on which scripts the table lists. *)
Definition decimal_zeros : list N :=
  [48; 1632; 1776; 1984; 2406; 2534; 2662; 2790; 2918; 3046; 3174; 3302;
   3430; 3558; 3664; 3792; 3872; 4160; 4240; 6112; 6160; 6470; 6608; 6784;
   6800; 6992; 7088; 7232; 7248; 42528; 43216; 43264; 43472; 43504; 43600;
   44016; 65296; 66720; 68912; 69734; 69872; 69942; 70096; 70384; 70736;
   70864; 71248; 71360; 71472; 71904; 72016; 72784; 73040; 73120; 92768;
   92864; 93008; 120782; 120792; 120802; 120812; 120822; 123200; 123632;
   125264; 130032].

(** Code points with Numeric_Type=Digit that are not decimal: superscripts,
    subscripts, circled and parenthesized digits and the like. *)
Definition other_digit_ranges : list (N * N) :=
  [(178, 179); (185, 185); (4969, 4977); (6618, 6618); (8304, 8304);
   (8308, 8313); (8320, 8329); (9312, 9320); (9332, 9340); (9352, 9360);
   (9450, 9450); (9461, 9469); (9471, 9471); (10102, 10110);
   (10112, 10120); (10122, 10130); (68160, 68163); (69216, 69224);
   (69714, 69722); (127232, 127242)].

(** The value of a decimal digit, [None] for any other code point. *)
Definition decimal_value (c : N) : option N :=
  match find (fun z => (z <=? c) && (c <? z + 10)) decimal_zeros with
  | Some z => Some (c - z)
  | None => None
  end.

Definition is_decimal (c : N) : bool :=
  match decimal_value c with Some _ => true | None => false end.

Definition is_other_digit (c : N) : bool :=
  existsb (fun r => (fst r <=? c) && (c <=? snd r)) other_digit_ranges.

(** The characters [str.isdigit] accepts. *)
Definition is_digit (c : N) : bool := is_decimal c || is_other_digit c.

End Unicode.

(** [s.isdigit()]: every character is a digit and there is at least one. *)
Definition isdigit (s : str) : bool :=
  match s with
  | [] => false
  | _ :: _ => forallb Unicode.is_digit s
  end.

(** The exceptions that reach the command boundary. *)
Inductive Exn : Type :=
| SystemExit (msg : str)
| ValueError (msg : str)
| IndexError
| ClientError (msg : str).

Inductive result (A : Type) : Type :=
| Ok (a : A)
| Raise (e : Exn).
Arguments Ok {A} a.
Arguments Raise {A} e.

Fixpoint digits_value (acc : N) (s : str) : option N :=
  match s with
  | [] => Some acc
  | c :: t =>
      match Unicode.decimal_value c with
      | Some d => digits_value (10 * acc + d) t
      | None => None
      end
  end.

Definition invalid_literal (s : str) : Exn :=
  ValueError (lit "invalid literal for int() with base 10: '" ++ s ++ lit "'").

(** [int(s)] on the strings the code passes to it, which have all passed
    [isdigit]: the base-ten value when every character is a decimal digit,
    [ValueError] otherwise (and on the empty string).  The forms of [int]
    with a sign, white space or underscores never reach it. *)
Definition int_ (s : str) : result N :=
  match s with
  | [] => Raise (invalid_literal s)
  | _ :: _ =>
      match digits_value 0 s with
      | Some n => Ok n
      | None => Raise (invalid_literal s)
      end
  end.

(** [max] of an iterable, which raises on an empty one. *)
Definition py_max (l : list N) : result N :=
  match l with
  | [] => Raise (ValueError (lit "max() arg is an empty sequence"))
  | x :: xs => Ok (fold_left N.max xs x)
  end.

(** [l[i]] for a non-negative [i]. *)
Definition getitem {A : Type} (l : list A) (i : N) : result A :=
  match nth_error l (N.to_nat i) with
  | Some a => Ok a
  | None => Raise IndexError
  end.

(** ** The label table of [formatting.py] *)

(** A Python [dict] with string keys, in insertion order. *)
Definition dict := list (str * str).

Definition str_eqb (a b : str) : bool :=
  if list_eq_dec N.eq_dec a b then true else false.

Fixpoint dict_get (d : dict) (k : str) : option str :=
  match d with
  | [] => None
  | (k', v) :: d' => if str_eqb k k' then Some v else dict_get d' k
  end.

Definition SYSTEM_LABELS : dict :=
  [ (lit "0", lit "Inbox");
    (lit "1", lit "Drafts");
    (lit "2", lit "Sent");
    (lit "3", lit "Starred");
    (lit "4", lit "Archive");
    (lit "5", lit "All Mail");
    (lit "6", lit "Spam");
    (lit "7", lit "Trash");
    (lit "8", lit "Draft-Sent");
    (lit "10", lit "Scheduled") ].

(** ** The mail collaborator *)

(** A message summary of a listing; the commands below read its [id]. *)
Record Message : Type := { id : str; subject : str }.

(** The calls a command issues, in the order it issues them.  The status
    spinner ([console.status]) shows nothing that lasts and is left out. *)
Inductive Call : Type :=
| CGetClient
| CGetMessages (page_size : N) (label_or_id : str)
| CSetLabel (label : str) (ids : list str)
| CUnsetLabel (label : str) (ids : list str)
| CDeleteMessages (ids : list str)
| CMarkUnread (ids : list str)
| CPrint (text : str).

(** The operations of the client library the commands use.  Each one takes
    the world to a new world and returns or raises; what the commands do
    not read of a returned value is not kept.  [get_client_op] is
    [get_client] of [config.py], which raises when no session is saved. *)
Class ProtonMail (W : Type) : Type := {
  get_client_op : W -> W * result unit;
  get_messages_op : N -> str -> W -> W * result (list Message);
  set_label_for_messages_op : str -> list str -> W -> W * result unit;
  unset_label_for_messages_op : str -> list str -> W -> W * result unit;
  delete_messages_op : list str -> W -> W * result unit;
  mark_messages_as_unread_op : list str -> W -> W * result unit
}.

(** ** Commands as computations *)

(** A computation over the world [W]: the new world, the calls issued and
    the outcome. *)
Definition M (W A : Type) : Type := W -> W * list Call * result A.

Definition ret {W A : Type} (a : A) : M W A := fun w => (w, [], Ok a).

Definition raise {W A : Type} (e : Exn) : M W A := fun w => (w, [], Raise e).

Definition bind {W A B : Type} (m : M W A) (k : A -> M W B) : M W B :=
  fun w =>
    match m w with
    | (w1, l1, Ok a) =>
        match k a w1 with
        | (w2, l2, r) => (w2, l1 ++ l2, r)
        end
    | (w1, l1, Raise e) => (w1, l1, Raise e)
    end.

(** A pure step that may raise. *)
Definition lift {W A : Type} (r : result A) : M W A := fun w => (w, [], r).

(** A call of the collaborator, recorded in the log. *)
Definition call {W A : Type} (c : Call) (op : W -> W * result A) : M W A :=
  fun w => match op w with (w1, r) => (w1, [c], r) end.

Declare Scope cmd_scope.
Delimit Scope cmd_scope with cmd.
Notation "x <- m ;; k" := (bind m (fun x => k))
  (at level 61, m at next level, right associativity) : cmd_scope.
Notation "m ;; k" := (bind m (fun _ => k))
  (at level 61, right associativity) : cmd_scope.

Section Commands.

Context {W : Type} {P : ProtonMail W}.
Local Open Scope cmd_scope.

Definition get_client : M W unit := call CGetClient get_client_op.

Definition get_messages (page_size : N) (label_or_id : str) : M W (list Message) :=
  call (CGetMessages page_size label_or_id) (get_messages_op page_size label_or_id).

Definition set_label_for_messages (label : str) (ids : list str) : M W unit :=
  call (CSetLabel label ids) (set_label_for_messages_op label ids).

Definition unset_label_for_messages (label : str) (ids : list str) : M W unit :=
  call (CUnsetLabel label ids) (unset_label_for_messages_op label ids).

Definition delete_messages (ids : list str) : M W unit :=
  call (CDeleteMessages ids) (delete_messages_op ids).

Definition mark_messages_as_unread (ids : list str) : M W unit :=
  call (CMarkUnread ids) (mark_messages_as_unread_op ids).

Definition console_print (text : str) : M W unit :=
  fun w => (w, [CPrint text], Ok tt).

(** The test [ref.isdigit() and len(ref) <= 4] of [_resolve_refs] and
    [read]. *)
Definition is_index_ref (ref : str) : bool := isdigit ref && (len ref <=? 4).

(** [int(r) for r in refs if r.isdigit() and len(r) <= 4], consumed in
    order: the first [int] that raises ends it. *)
Fixpoint index_values (refs : list str) : result (list N) :=
  match refs with
  | [] => Ok []
  | r :: rest =>
      if is_index_ref r then
        match int_ r with
        | Raise e => Raise e
        | Ok n =>
            match index_values rest with
            | Raise e => Raise e
            | Ok l => Ok (n :: l)
            end
        end
      else index_values rest
  end.

Definition max_idx_of (refs : list str) : result N :=
  match index_values refs with
  | Raise e => Raise e
  | Ok l => py_max l
  end.

(** The loop of [_resolve_refs] over the references still to visit, with
    its two variables [ids] and [inbox_cache]; [refs] is the whole
    argument, which the computation of [max_idx] reads again. *)
Fixpoint resolve_loop (refs rest : list str) (ids : list str)
    (inbox_cache : option (list Message)) : M W (list str) :=
  match rest with
  | [] => ret ids
  | ref :: rest' =>
      if is_index_ref ref then
        idx <- lift (int_ ref) ;;
        cache <- match inbox_cache with
                 | None =>
                     max_idx <- lift (max_idx_of refs) ;;
                     get_messages (max_idx + 1) (lit "0")
                 | Some c => ret c
                 end ;;
        if len cache <=? idx then
          raise (SystemExit (lit "Index " ++ str_of_int idx ++ lit " out of range"))
        else
          m <- lift (getitem cache idx) ;;
          resolve_loop refs rest' (ids ++ [id m]) (Some cache)
      else resolve_loop refs rest' (ids ++ [ref]) inbox_cache
  end.

Definition _resolve_refs (refs : list str) : M W (list str) :=
  resolve_loop refs refs [] None.

(** The resolution of [message_ref] at the head of [read] (from
    [msg_id = message_ref] to [msg_id = messages[idx].id]); the command
    goes on to read and print the message [msg_id]. *)
Definition read_msg_id (message_ref : str) : M W str :=
  if is_index_ref message_ref then
    idx <- lift (int_ message_ref) ;;
    messages <- get_messages (idx + 1) (lit "0") ;;
    if len messages <=? idx then
      raise (SystemExit (lit "Index " ++ str_of_int idx ++ lit " out of range (have "
                         ++ str_of_int (len messages) ++ lit " messages)"))
    else
      m <- lift (getitem messages idx) ;;
      ret (id m)
  else ret message_ref.

Definition delete (message_refs : list str) : M W unit :=
  get_client ;;
  ids <- _resolve_refs message_refs ;;
  delete_messages ids ;;
  console_print (lit "[green]Deleted " ++ str_of_int (len ids) ++ lit " message(s).[/]").

Definition archive (message_refs : list str) : M W unit :=
  get_client ;;
  ids <- _resolve_refs message_refs ;;
  set_label_for_messages (lit "4") ids ;;
  unset_label_for_messages (lit "0") ids ;;
  console_print (lit "[green]Archived " ++ str_of_int (len ids) ++ lit " message(s).[/]").

Definition spam (message_refs : list str) : M W unit :=
  get_client ;;
  ids <- _resolve_refs message_refs ;;
  set_label_for_messages (lit "6") ids ;;
  unset_label_for_messages (lit "0") ids ;;
  console_print (lit "[green]Marked " ++ str_of_int (len ids) ++ lit " message(s) as spam.[/]").

Definition star (message_refs : list str) : M W unit :=
  get_client ;;
  ids <- _resolve_refs message_refs ;;
  set_label_for_messages (lit "10") ids ;;
  console_print (lit "[green]Starred " ++ str_of_int (len ids) ++ lit " message(s).[/]").

Definition unread (message_refs : list str) : M W unit :=
  get_client ;;
  ids <- _resolve_refs message_refs ;;
  mark_messages_as_unread ids ;;
  console_print (lit "[green]Marked " ++ str_of_int (len ids) ++ lit " message(s) as unread.[/]").

End Commands.

(** The closed set of action commands. *)
Inductive Action : Type := Delete | Archive | Spam | Star | Unread.

Definition action_command {W : Type} {P : ProtonMail W} (a : Action)
    : list str -> M W unit :=
  match a with
  | Delete => delete
  | Archive => archive
  | Spam => spam
  | Star => star
  | Unread => unread
  end.

(** ** Reading a log *)

Definition is_mutation (c : Call) : bool :=
  match c with
  | CSetLabel _ _ | CUnsetLabel _ _ | CDeleteMessages _ | CMarkUnread _ => true
  | CGetClient | CGetMessages _ _ | CPrint _ => false
  end.

Definition is_fetch (c : Call) : bool :=
  match c with
  | CGetMessages _ _ => true
  | _ => false
  end.

Definition is_print (c : Call) : bool :=
  match c with
  | CPrint _ => true
  | _ => false
  end.

Definition mutation_calls (log : list Call) : list Call := filter is_mutation log.
Definition fetch_calls (log : list Call) : list Call := filter is_fetch log.
Definition printed (log : list Call) : list Call := filter is_print log.

Definition log_of {W A : Type} (run : W * list Call * result A) : list Call :=
  snd (fst run).

Definition outcome_of {W A : Type} (run : W * list Call * result A) : result A :=
  snd run.

(** What the user sees of a run: what was printed and how it ended. *)
Definition reported {W A : Type} (run : W * list Call * result A)
    : list Call * result A :=
  match run with (_, log, r) => (printed log, r) end.

(** ** The shape of a run of an action command *)

Section Runs.

Context {W : Type} {P : ProtonMail W}.

(** The two-call commands: client, resolution, add-label, remove-label,
    success message; the first step that raises ends the command. *)
Definition label_move_run (add_label : str) (text : list str -> str)
    (refs : list str) (w : W) : W * list Call * result unit :=
  match get_client_op w with
  | (w1, Raise e) => (w1, [CGetClient], Raise e)
  | (w1, Ok _) =>
      match _resolve_refs refs w1 with
      | (w2, l, Raise e) => (w2, CGetClient :: l, Raise e)
      | (w2, l, Ok ids) =>
          match set_label_for_messages_op add_label ids w2 with
          | (w3, Raise e) =>
              (w3, CGetClient :: l ++ [CSetLabel add_label ids], Raise e)
          | (w3, Ok _) =>
              match unset_label_for_messages_op (lit "0") ids w3 with
              | (w4, Raise e) =>
                  (w4, CGetClient :: l ++ [CSetLabel add_label ids;
                                           CUnsetLabel (lit "0") ids], Raise e)
              | (w4, Ok _) =>
                  (w4, CGetClient :: l ++ [CSetLabel add_label ids;
                                           CUnsetLabel (lit "0") ids;
                                           CPrint (text ids)], Ok tt)
              end
          end
      end
  end.

(** The one-call commands, with the call [c] and the operation [op]. *)
Definition single_call_run (c : list str -> Call)
    (op : list str -> W -> W * result unit) (text : list str -> str)
    (refs : list str) (w : W) : W * list Call * result unit :=
  match get_client_op w with
  | (w1, Raise e) => (w1, [CGetClient], Raise e)
  | (w1, Ok _) =>
      match _resolve_refs refs w1 with
      | (w2, l, Raise e) => (w2, CGetClient :: l, Raise e)
      | (w2, l, Ok ids) =>
          match op ids w2 with
          | (w3, Raise e) => (w3, CGetClient :: l ++ [c ids], Raise e)
          | (w3, Ok _) => (w3, CGetClient :: l ++ [c ids; CPrint (text ids)], Ok tt)
          end
      end
  end.

End Runs.

(** ** What one reference resolves to, given the fetched listing *)

Definition batch_out_of_range (idx : N) : Exn :=
  SystemExit (lit "Index " ++ str_of_int idx ++ lit " out of range").

Definition read_out_of_range (idx available : N) : Exn :=
  SystemExit (lit "Index " ++ str_of_int idx ++ lit " out of range (have "
              ++ str_of_int available ++ lit " messages)").

(** One turn of the loop of [_resolve_refs] once the listing is there. *)
Definition resolve_ref (cache : list Message) (ref : str) : result str :=
  if is_index_ref ref then
    match int_ ref with
    | Raise e => Raise e
    | Ok idx =>
        if len cache <=? idx then Raise (batch_out_of_range idx)
        else match getitem cache idx with
             | Raise e => Raise e
             | Ok m => Ok (id m)
             end
    end
  else Ok ref.

(** The turns for a whole list, stopping at the first that raises. *)
Fixpoint resolve_all (cache : list Message) (refs : list str) : result (list str) :=
  match refs with
  | [] => Ok []
  | ref :: rest =>
      match resolve_ref cache ref with
      | Raise e => Raise e
      | Ok i =>
          match resolve_all cache rest with
          | Raise e => Raise e
          | Ok l => Ok (i :: l)
          end
      end
  end.

(** [int] of the first reference that passes the index test, if any. *)
Fixpoint first_index_value (refs : list str) : result (option N) :=
  match refs with
  | [] => Ok None
  | r :: rest =>
      if is_index_ref r then
        match int_ r with
        | Raise e => Raise e
        | Ok n => Ok (Some n)
        end
      else first_index_value rest
  end.

(** ** The classification as the specification words it *)

(** "consists solely of decimal digits" *)
Definition all_decimal (s : str) : bool := forallb Unicode.is_decimal s.

(** "an Index iff its textual form consists solely of decimal digits and
    has length at most 4" *)
Definition spec_index (s : str) : bool := all_decimal s && (len s <=? 4).

(** No character of [s] is a digit without being a decimal digit. *)
Definition no_other_digit (s : str) : bool :=
  forallb (fun c => negb (Unicode.is_other_digit c)) s.

(** How the outcome of [read_msg_id] on a reference corresponds to the
    outcome of [_resolve_refs] on that reference alone. *)
Inductive same_outcome : result str -> result (list str) -> Prop :=
| same_id (i : str) : same_outcome (Ok i) (Ok [i])
| same_out_of_range (idx available : N) :
    available <= idx ->
    same_outcome (Raise (read_out_of_range idx available))
                 (Raise (batch_out_of_range idx))
| same_exception (e : Exn) : same_outcome (Raise e) (Raise e).

(** ** A small collaborator to run the commands on *)

(** An in-memory mailbox: the inbox listing, and for each label call the
    exception it raises, if any. *)
Record Mailbox : Type := {
  inbox : list Message;
  set_label_raises : option Exn;
  unset_label_raises : option Exn
}.

Definition may_raise (e : option Exn) : result unit :=
  match e with
  | Some x => Raise x
  | None => Ok tt
  end.

#[export] Instance Mailbox_client : ProtonMail Mailbox := {
  get_client_op w := (w, Ok tt);
  get_messages_op _ label w :=
    (w, Ok (if str_eqb label (lit "0") then inbox w else []));
  set_label_for_messages_op _ _ w := (w, may_raise (set_label_raises w));
  unset_label_for_messages_op _ _ w := (w, may_raise (unset_label_raises w));
  delete_messages_op _ w := (w, Ok tt);
  mark_messages_as_unread_op _ w := (w, Ok tt)
}.

Definition msg (i : string) : Message := {| id := lit i; subject := empty_str |}.

Definition four_messages : list Message := [msg "idA"; msg "idB"; msg "idC"; msg "idD"].

Definition healthy (l : list Message) : Mailbox :=
  {| inbox := l; set_label_raises := None; unset_label_raises := None |}.

Definition five_messages : list Message := four_messages ++ [msg "idE"].

(** A mailbox whose remove-label call raises, and one whose add-label call
    raises the same exception. *)
Definition remove_fails (l : list Message) : Mailbox :=
  {| inbox := l; set_label_raises := None;
     unset_label_raises := Some (ClientError (lit "request failed")) |}.

Definition add_fails (l : list Message) : Mailbox :=
  {| inbox := l; set_label_raises := Some (ClientError (lit "request failed"));
     unset_label_raises := None |}.

(** ** The bodies, subjects and recipients of [send], [reply] and [forward] *)

(** [s.replace(old, new)] where [old] is one character, as in every call
    of the source. *)
Definition replace_char (old : N) (new : str) (s : str) : str :=
  flat_map (fun c => if c =? old then new else [c]) s.

Definition amp : N := 38.
Definition lt : N := 60.
Definition gt : N := 62.

(** [body.replace("&", "&amp;").replace("<", "&lt;").replace(">", "&gt;")],
    the expression [escaped] of [send], [reply] and [forward]. *)
Definition escaped (body : str) : str :=
  replace_char gt (lit "&gt;")
    (replace_char lt (lit "&lt;")
       (replace_char amp (lit "&amp;") body)).

(** [html_body] of [send]. *)
Definition send_html_body (is_html : bool) (body : str) : str :=
  if negb is_html then lit "<pre>" ++ escaped body ++ lit "</pre>"
  else body.

(** What the three replacements make of one character. *)
Definition escape_char (c : N) : str :=
  if c =? amp then lit "&amp;"
  else if c =? lt then lit "&lt;"
  else if c =? gt then lit "&gt;"
  else [c].

(** The number of occurrences of a character. *)
Definition count_char (c : N) (s : str) : nat :=
  List.length (filter (N.eqb c) s).

(** [s.startswith(prefix)]. *)
Fixpoint startswith (s prefix : str) {struct prefix} : bool :=
  match prefix with
  | [] => true
  | p :: prefix' =>
      match s with
      | [] => false
      | c :: s' => (c =? p) && startswith s' prefix'
      end
  end.

(** The [subject] argument of [create_message] in [reply]. *)
Definition reply_subject (subject : str) : str :=
  if negb (startswith subject (lit "Re:")) then lit "Re: " ++ subject
  else subject.

(** A sender or recipient of a message, and an address of the account. *)
Record UserMail : Type := { name : str; address : str }.
Record AccountAddress : Type := { email : str }.

(** What [reply] reads of the message [read_message] returned. *)
Record Original : Type := {
  original_subject : str;
  sender : UserMail;
  recipients : list UserMail;
  cc : list UserMail
}.

(** [x in s] for a set of strings. *)
Definition str_in (x : str) (s : list str) : bool := existsb (str_eqb x) s.

Section Reply.

(** [str.lower], whose case table is not part of this development. *)
Variable lower : str -> str.

(** [for r in rs: if r.address.lower() not in my_addresses:
    acc.append(r.address)]. *)
Fixpoint append_others (my_addresses : list str) (rs : list UserMail)
    (acc : list str) : list str :=
  match rs with
  | [] => acc
  | r :: rest =>
      if negb (str_in (lower (address r)) my_addresses)
      then append_others my_addresses rest (acc ++ [address r])
      else append_others my_addresses rest acc
  end.

(** The lists [recipients] and [cc] that [reply] passes to
    [create_message]. *)
Definition reply_recipients (reply_all : bool) (original : Original)
    (account_addresses : list AccountAddress) : list str * list str :=
  let recipients0 := [address (sender original)] in
  if reply_all then
    let my_addresses := map (fun a => lower (email a)) account_addresses in
    (append_others my_addresses (recipients original) recipients0,
     append_others my_addresses (cc original) [])
  else (recipients0, []).

End Reply.

(** Lower case on the letters A to Z, which is what [str.lower] does to
    a string of ASCII characters. *)
Definition ascii_lower (s : str) : str :=
  map (fun c => if (65 <=? c) && (c <=? 90) then c + 32 else c) s.

Section InlineResolution.

Context {W : Type} {P : ProtonMail W}.
Local Open Scope cmd_scope.

(** The resolution of [message_ref] at the head of [reply]; [forward] and
    [download] have the same lines. *)
Definition reply_msg_id (message_ref : str) : M W str :=
  if is_index_ref message_ref then
    idx <- lift (int_ message_ref) ;;
    messages <- get_messages (idx + 1) (lit "0") ;;
    if len messages <=? idx then
      raise (SystemExit (lit "Index " ++ str_of_int idx ++ lit " out of range"))
    else
      m <- lift (getitem messages idx) ;;
      ret (id m)
  else ret message_ref.

End InlineResolution.

(** ** What the action commands and the listing print *)

(** The success message of an action command for [count] identifiers. *)
Definition success_text (a : Action) (count : N) : str :=
  match a with
  | Delete => lit "[green]Deleted " ++ str_of_int count ++ lit " message(s).[/]"
  | Archive => lit "[green]Archived " ++ str_of_int count ++ lit " message(s).[/]"
  | Spam => lit "[green]Marked " ++ str_of_int count ++ lit " message(s) as spam.[/]"
  | Star => lit "[green]Starred " ++ str_of_int count ++ lit " message(s).[/]"
  | Unread => lit "[green]Marked " ++ str_of_int count ++ lit " message(s) as unread.[/]"
  end.




(** ** [ls], [folders] and [count] *)

Definition FOLDER_ALIASES : dict :=
  [ (lit "inbox", lit "0");
    (lit "drafts", lit "1");
    (lit "sent", lit "2");
    (lit "starred", lit "3");
    (lit "archive", lit "4");
    (lit "all", lit "5");
    (lit "spam", lit "6");
    (lit "trash", lit "7") ].

(** [d.get(k, default)], and [o.get(key, default)] for a key that may be
    missing. *)
Definition dict_get_or (d : dict) (k : str) (default : str) : str :=
  match dict_get d k with
  | Some v => v
  | None => default
  end.

Definition get_or {A : Type} (o : option A) (default : A) : A :=
  match o with
  | Some a => a
  | None => default
  end.

(** [k in d]. *)
Definition dict_contains (d : dict) (k : str) : bool :=
  match dict_get d k with
  | Some _ => true
  | None => false
  end.

Section Ls.

Variable lower : str -> str.

(** [label_id] and [folder_name] of [ls]. *)
Definition ls_label_id (folder : str) : str :=
  dict_get_or FOLDER_ALIASES (lower folder) folder.

Definition ls_folder_name (folder : str) : str :=
  dict_get_or SYSTEM_LABELS (ls_label_id folder) folder.

End Ls.







(** [str(z)] for an integer. *)
Definition str_of_Z (z : Z) : str := lit (NilEmpty.string_of_int (Z.to_int z)).

(** An entry of [get_messages_count]: a dictionary in which each of the
    three keys may be missing. *)
Record CountEntry : Type := {
  entry_LabelID : option str;
  entry_Total : option Z;
  entry_Unread : option Z
}.

(** The rows [count] adds to its table, in order. *)
Fixpoint count_rows (counts : list CountEntry) : list (str * str * str) :=
  match counts with
  | [] => []
  | entry :: rest =>
      let label := get_or (entry_LabelID entry) empty_str in
      let name := dict_get_or SYSTEM_LABELS label label in
      if negb (dict_contains SYSTEM_LABELS label) then count_rows rest
      else
        let total := get_or (entry_Total entry) 0%Z in
        let unread_count := get_or (entry_Unread entry) 0%Z in
        let unread_str :=
          if (0 <? unread_count)%Z then str_of_Z unread_count else empty_str in
        (name, str_of_Z total, unread_str) :: count_rows rest
  end.

(** ** [format_size] *)

(** [f"{x:.0f}"] for the number [num / den]: the nearest integer, the
    even one of two that are equally near. *)
Definition round_half_even (num den : N) : N :=
  let q := num / den in
  let r := num mod den in
  if 2 * r <? den then q
  else if den <? 2 * r then q + 1
  else if N.even q then q else q + 1.

(** [f"{x:.1f}"] for the number [num / den]. *)
Definition format_tenths (num den : N) : str :=
  let r := round_half_even (10 * num) den in
  str_of_int (r / 10) ++ lit "." ++ str_of_int (r mod 10).

(** The loop of [format_size] over the units still to try; the size is
    [num / den], where [den] is the power of 1024 it was divided by. *)
Fixpoint format_size_loop (units : list str) (num den : N) : str :=
  match units with
  | [] => format_tenths num den ++ lit "TB"
  | unit :: rest =>
      if num <? 1024 * den then str_of_int (round_half_even num den) ++ unit
      else format_size_loop rest num (den * 1024)
  end.

(** [format_size] of [formatting.py] on a size in bytes below [2 ^ 53].
    For such a size every float of the source is exact: the size itself,
    and each quotient by 1024, a power of two. *)
Definition format_size (size_bytes : N) : str :=
  format_size_loop [lit "B"; lit "KB"; lit "MB"; lit "GB"] size_bytes 1.

(** ** The saved session ([config.py]) and [logout] *)

(** The session file and the library's loading of it. *)
Class SessionStore (W : Type) : Type := {
  session_file_exists : W -> bool;
  session_file_unlink : W -> W * result unit;
  load_session_op : W -> W * result unit
}.

(** [get_client] of [config.py]. *)
Definition config_get_client {W : Type} {S : SessionStore W} (w : W)
    : W * result unit :=
  if negb (session_file_exists w)
  then (w, Raise (SystemExit (lit "Not logged in. Run: pmail login")))
  else load_session_op w.

(** [logout] of [cli.py]. *)
Definition logout {W : Type} {S : SessionStore W} : M W unit :=
  fun w =>
    if session_file_exists w then
      match session_file_unlink w with
      | (w1, Ok _) => (w1, [CPrint (lit "[green]Session removed.[/]")], Ok tt)
      | (w1, Raise e) => (w1, [], Raise e)
      end
    else (w, [CPrint (lit "[yellow]No active session.[/]")], Ok tt).

(** The client whose [get_client] is that of [config.py]. *)
Definition with_saved_session {W : Type} (S : SessionStore W) (P : ProtonMail W)
    : ProtonMail W :=
  {| get_client_op := config_get_client;
     get_messages_op := @get_messages_op W P;
     set_label_for_messages_op := @set_label_for_messages_op W P;
     unset_label_for_messages_op := @unset_label_for_messages_op W P;
     delete_messages_op := @delete_messages_op W P;
     mark_messages_as_unread_op := @mark_messages_as_unread_op W P |}.

(** A world that is nothing but the session file: there or not. *)
Definition flag_store : SessionStore bool :=
  {| session_file_exists := fun w => w;
     session_file_unlink := fun _ => (false, Ok tt);
     load_session_op := fun w => (w, Ok tt) |}.

Definition flag_client : ProtonMail bool :=
  {| get_client_op := fun w => (w, Ok tt);
     get_messages_op := fun _ _ w => (w, Ok []);
     set_label_for_messages_op := fun _ _ w => (w, Ok tt);
     unset_label_for_messages_op := fun _ _ w => (w, Ok tt);
     delete_messages_op := fun _ w => (w, Ok tt);
     mark_messages_as_unread_op := fun _ w => (w, Ok tt) |}.

(** ** Checks of the Python values *)

Example isdigit_12 : isdigit (lit "12") = true.
Proof. reflexivity. Qed.
Example isdigit_empty : isdigit (empty_str) = false.
Proof. reflexivity. Qed.
Example isdigit_abc : isdigit (lit "abc123") = false.
Proof. reflexivity. Qed.
Example isdigit_superscript_two : isdigit [178] = true.
Proof. reflexivity. Qed.
Example int_0042 : int_ (lit "0042") = Ok 42.
Proof. reflexivity. Qed.
Example int_arabic_indic_12 : int_ [1633; 1634] = Ok 12.
Proof. reflexivity. Qed.
Example int_superscript_two : int_ [178] = Raise (invalid_literal [178]).
Proof. reflexivity. Qed.
Example str_of_int_0 : str_of_int 0 = lit "0".
Proof. reflexivity. Qed.
Example str_of_int_9041 : str_of_int 9041 = lit "9041".
Proof. reflexivity. Qed.

(** ** Runs on a four-message inbox *)

Example resolve_0_2_xyz :
  _resolve_refs [lit "0"; lit "2"; lit "xyz"] (healthy four_messages)
  = (healthy four_messages, [CGetMessages 3 (lit "0")],
     Ok [lit "idA"; lit "idC"; lit "xyz"]).
Proof. reflexivity. Qed.

Example resolve_12345 :
  _resolve_refs [lit "12345"] (healthy four_messages)
  = (healthy four_messages, [], Ok [lit "12345"]).
Proof. reflexivity. Qed.

Example resolve_9 :
  _resolve_refs [lit "9"] (healthy four_messages)
  = (healthy four_messages, [CGetMessages 10 (lit "0")], Raise (batch_out_of_range 9)).
Proof. reflexivity. Qed.

Example archive_1_abc :
  archive [lit "1"; lit "abc"] (healthy four_messages)
  = (healthy four_messages,
     [CGetClient; CGetMessages 2 (lit "0");
      CSetLabel (lit "4") [lit "idB"; lit "abc"];
      CUnsetLabel (lit "0") [lit "idB"; lit "abc"];
      CPrint (lit "[green]Archived 2 message(s).[/]")],
     Ok tt).
Proof. reflexivity. Qed.

(** ** The loop of the resolver *)

Section Resolver.

Context {W : Type} {P : ProtonMail W}.

Ltac run_step :=
  unfold bind, lift, ret, raise, get_messages, call; simpl.

(** Once the listing is cached the loop issues no call: it is
    [resolve_all] appended to what was collected so far. *)
Lemma resolve_loop_cached (refs rest ids : list str) (c : list Message) (w : W) :
  resolve_loop refs rest ids (Some c) w =
    (w, [], match resolve_all c rest with
            | Ok l => Ok (ids ++ l)
            | Raise e => Raise e
            end).
Proof.
  revert ids; induction rest as [|ref rest IH]; intros ids; simpl.
  - unfold ret; now rewrite app_nil_r.
  - unfold resolve_ref, batch_out_of_range.
    destruct (is_index_ref ref).
    + run_step. destruct (int_ ref) as [idx|e]; [|reflexivity].
      destruct (len c <=? idx); [reflexivity|].
      destruct (getitem c idx) as [m|e]; [|reflexivity].
      rewrite IH. destruct (resolve_all c rest) as [l|e]; [|reflexivity].
      now rewrite <- app_assoc.
    + rewrite IH. destruct (resolve_all c rest) as [l|e]; [|reflexivity].
      now rewrite <- app_assoc.
Qed.

(** Before the first index reference the loop only copies; at the first
    one it computes [max_idx], fetches once and goes on with the cache. *)
Lemma resolve_loop_uncached (refs rest ids : list str) (w : W) :
  resolve_loop refs rest ids None w =
    match first_index_value rest with
    | Raise e => (w, [], Raise e)
    | Ok None => (w, [], Ok (ids ++ rest))
    | Ok (Some _) =>
        match max_idx_of refs with
        | Raise e => (w, [], Raise e)
        | Ok m =>
            match get_messages_op (m + 1) (lit "0") w with
            | (w', Raise e) => (w', [CGetMessages (m + 1) (lit "0")], Raise e)
            | (w', Ok c) =>
                (w', [CGetMessages (m + 1) (lit "0")],
                 match resolve_all c rest with
                 | Ok l => Ok (ids ++ l)
                 | Raise e => Raise e
                 end)
            end
        end
    end.
Proof.
  revert ids; induction rest as [|ref rest IH]; intros ids; simpl.
  - unfold ret; now rewrite app_nil_r.
  - unfold resolve_ref, batch_out_of_range.
    destruct (is_index_ref ref) eqn:Hix.
    + run_step. destruct (int_ ref) as [idx|e]; [|reflexivity].
      destruct (max_idx_of refs) as [m|e]; [|reflexivity].
      destruct (get_messages_op (m + 1) (lit "0") w) as [w' [c|e]]; [|reflexivity].
      simpl. destruct (len c <=? idx); [reflexivity|].
      destruct (getitem c idx) as [x|e]; [|reflexivity].
      rewrite resolve_loop_cached.
      destruct (resolve_all c rest) as [l|e]; [|reflexivity].
      now rewrite <- app_assoc.
    + rewrite IH. destruct (first_index_value rest) as [[n|]|e]; try reflexivity.
      * destruct (max_idx_of refs) as [m|e]; [|reflexivity].
        destruct (get_messages_op (m + 1) (lit "0") w) as [w' [c|e]]; [|reflexivity].
        destruct (resolve_all c rest) as [l|e]; [|reflexivity].
        now rewrite <- app_assoc.
      * now rewrite <- app_assoc.
Qed.

End Resolver.

(** ** Facts about the Python values *)

Lemma len_leb_nth_error {A : Type} (l : list A) (i : N) :
  (len l <=? i) = true <-> nth_error l (N.to_nat i) = None.
Proof.
  unfold len. rewrite N.leb_le, nth_error_None. lia.
Qed.

Lemma getitem_in_range {A : Type} (l : list A) (i : N) :
  (len l <=? i) = false ->
  exists a, nth_error l (N.to_nat i) = Some a /\ getitem l i = Ok a.
Proof.
  intros H. unfold getitem.
  destruct (nth_error l (N.to_nat i)) as [a|] eqn:E.
  - now exists a.
  - apply len_leb_nth_error in E. congruence.
Qed.

Lemma is_digit_without_other (c : N) :
  Unicode.is_other_digit c = false -> Unicode.is_digit c = Unicode.is_decimal c.
Proof.
  intros H. unfold Unicode.is_digit. rewrite H. apply orb_false_r.
Qed.

Lemma forallb_is_digit_without_other (s : str) :
  no_other_digit s = true -> forallb Unicode.is_digit s = all_decimal s.
Proof.
  unfold no_other_digit, all_decimal.
  induction s as [|c s IH]; simpl; [reflexivity|].
  rewrite andb_true_iff, negb_true_iff. intros [Hc Hs].
  now rewrite (is_digit_without_other c Hc), (IH Hs).
Qed.

(** [isdigit] on a string without superscript-like digits. *)
Lemma isdigit_without_other (s : str) :
  no_other_digit s = true ->
  isdigit s = match s with [] => false | _ :: _ => all_decimal s end.
Proof.
  intros H. destruct s as [|c s]; [reflexivity|].
  unfold isdigit. now apply forallb_is_digit_without_other.
Qed.

Lemma digits_value_all_decimal (s : str) (acc : N) :
  all_decimal s = true -> exists n, digits_value acc s = Some n.
Proof.
  unfold all_decimal. revert acc.
  induction s as [|c s IH]; intros acc; simpl.
  - intros _. now exists acc.
  - unfold Unicode.is_decimal.
    destruct (Unicode.decimal_value c) as [d|]; simpl; [|discriminate].
    apply IH.
Qed.

(** [int] returns on a non-empty string of decimal digits. *)
Lemma int_all_decimal (s : str) :
  s <> [] -> all_decimal s = true -> exists n, int_ s = Ok n.
Proof.
  intros Hne Hd. destruct s as [|c s]; [congruence|].
  unfold int_. destruct (digits_value_all_decimal (c :: s) 0 Hd) as [n Hn].
  rewrite Hn. now exists n.
Qed.

Lemma is_index_ref_without_other (s : str) :
  no_other_digit s = true ->
  (is_index_ref s = true <-> s <> [] /\ spec_index s = true).
Proof.
  intros H. unfold is_index_ref, spec_index.
  rewrite (isdigit_without_other s H). destruct s as [|c s].
  - simpl. split; [discriminate|]. intros [Hne _]. congruence.
  - split; [intros E; split; [discriminate|exact E]|intros [_ E]; exact E].
Qed.

Lemma is_index_ref_too_long (s : str) : 4 < len s -> is_index_ref s = false.
Proof.
  intros H. unfold is_index_ref. apply andb_false_iff. right.
  apply N.leb_gt. exact H.
Qed.

Lemma fold_left_max_ge (l : list N) (x : N) :
  x <= fold_left N.max l x /\ forall n, In n l -> n <= fold_left N.max l x.
Proof.
  revert x; induction l as [|y l IH]; intros x; simpl.
  - split; [lia | intros n []].
  - destruct (IH (N.max x y)) as [H1 H2]. split; [lia|].
    intros n [->|Hn]; [lia | now apply H2].
Qed.

Lemma fold_left_max_in (l : list N) (x : N) :
  fold_left N.max l x = x \/ In (fold_left N.max l x) l.
Proof.
  revert x; induction l as [|y l IH]; intros x; simpl; [now left|].
  destruct (IH (N.max x y)) as [H|H]; [|now right; right].
  rewrite H. destruct (N.max_spec x y) as [[_ E]|[_ E]]; rewrite E; auto.
Qed.

Lemma py_max_spec (l : list N) (m : N) :
  py_max l = Ok m -> In m l /\ forall n, In n l -> n <= m.
Proof.
  destruct l as [|x l]; simpl; [discriminate|].
  intros E; injection E as <-.
  destruct (fold_left_max_ge l x) as [H1 H2].
  split.
  - destruct (fold_left_max_in l x) as [H|H]; [left; now rewrite H | now right].
  - intros n [<-|Hn]; [exact H1 | now apply H2].
Qed.

(** ** Facts about the references of a batch *)

Lemma index_values_spec (refs : list str) (l : list N) :
  index_values refs = Ok l ->
  (forall r, In r refs -> is_index_ref r = true -> exists n, int_ r = Ok n /\ In n l)
  /\ (forall n, In n l -> exists r, In r refs /\ is_index_ref r = true /\ int_ r = Ok n).
Proof.
  revert l; induction refs as [|r refs IH]; intros l; simpl.
  - intros E; injection E as <-. split; [intros r [] | intros n []].
  - destruct (is_index_ref r) eqn:Hr.
    + destruct (int_ r) as [n|e] eqn:Hn; [|discriminate].
      destruct (index_values refs) as [l'|e]; [|discriminate].
      intros E; injection E as <-. destruct (IH l' eq_refl) as [H1 H2]. split.
      * intros r' [<-|Hin] Hr'.
        -- exists n. split; [exact Hn | now left].
        -- destruct (H1 r' Hin Hr') as [n' [A B]]. exists n'. split; [exact A | now right].
      * intros n' [<-|Hin].
        -- exists r. split; [now left | now split].
        -- destruct (H2 n' Hin) as [r' [A [B C]]]. exists r'. split; [now right | now split].
    + intros E. destruct (IH l E) as [H1 H2]. split.
      * intros r' [<-|Hin] Hr'; [congruence | now apply H1].
      * intros n Hin. destruct (H2 n Hin) as [r' [A [B C]]].
        exists r'. split; [now right | now split].
Qed.

(** [max_idx] is the value of one index reference of the batch and bounds
    the value of every one. *)
Lemma max_idx_of_spec (refs : list str) (m : N) :
  max_idx_of refs = Ok m ->
  (exists r, In r refs /\ is_index_ref r = true /\ int_ r = Ok m)
  /\ (forall r, In r refs -> is_index_ref r = true -> exists n, int_ r = Ok n /\ n <= m).
Proof.
  unfold max_idx_of. destruct (index_values refs) as [l|e] eqn:E; [|discriminate].
  intros Hm. destruct (py_max_spec l m Hm) as [Hin Hle].
  destruct (index_values_spec refs l E) as [H1 H2]. split.
  - now apply H2.
  - intros r Hr Hix. destruct (H1 r Hr Hix) as [n [A B]].
    exists n. split; [exact A | now apply Hle].
Qed.

Lemma first_index_value_spec (refs : list str) :
  match first_index_value refs with
  | Raise e => existsb is_index_ref refs = true /\ index_values refs = Raise e
  | Ok None => existsb is_index_ref refs = false
  | Ok (Some _) => existsb is_index_ref refs = true
  end.
Proof.
  induction refs as [|r refs IH]; simpl; [reflexivity|].
  destruct (is_index_ref r) eqn:Hr; simpl.
  - destruct (int_ r) as [n|e]; [reflexivity | now split].
  - exact IH.
Qed.

Lemma resolve_all_no_index (c : list Message) (refs : list str) :
  existsb is_index_ref refs = false -> resolve_all c refs = Ok refs.
Proof.
  induction refs as [|r refs IH]; simpl; [reflexivity|].
  rewrite orb_false_iff. intros [Hr Hrest].
  unfold resolve_ref. rewrite Hr, (IH Hrest). reflexivity.
Qed.

Lemma resolve_all_Forall2 (c : list Message) (refs ids : list str) :
  resolve_all c refs = Ok ids ->
  Forall2 (fun r i => resolve_ref c r = Ok i) refs ids.
Proof.
  revert ids; induction refs as [|r refs IH]; intros ids; simpl.
  - intros E; injection E as <-. constructor.
  - destruct (resolve_ref c r) as [i|e] eqn:Hr; [|discriminate].
    destruct (resolve_all c refs) as [l|e]; [|discriminate].
    intros E; injection E as <-. constructor; [exact Hr | now apply IH].
Qed.

(** ** What a run of the resolver is *)

Section ResolverRun.

Context {W : Type} {P : ProtonMail W}.

(** With no index reference the batch is returned as it is and nothing
    is called; otherwise [max_idx] is computed, the inbox is fetched
    once, and every reference is resolved against that one listing. *)
Theorem resolve_refs_run (refs : list str) (w : W) :
  _resolve_refs refs w =
    if existsb is_index_ref refs then
      match max_idx_of refs with
      | Raise e => (w, [], Raise e)
      | Ok m =>
          match get_messages_op (m + 1) (lit "0") w with
          | (w', Raise e) => (w', [CGetMessages (m + 1) (lit "0")], Raise e)
          | (w', Ok c) => (w', [CGetMessages (m + 1) (lit "0")], resolve_all c refs)
          end
      end
    else (w, [], Ok refs).
Proof.
  unfold _resolve_refs. rewrite resolve_loop_uncached.
  pose proof (first_index_value_spec refs) as H.
  destruct (first_index_value refs) as [[n|]|e].
  - rewrite H. destruct (max_idx_of refs) as [m|e]; [|reflexivity].
    destruct (get_messages_op (m + 1) (lit "0") w) as [w' [c|e]]; [|reflexivity].
    now destruct (resolve_all c refs).
  - now rewrite H.
  - destruct H as [H1 H2]. rewrite H1. unfold max_idx_of. now rewrite H2.
Qed.

End ResolverRun.

(** ** What a run of an action command is *)

Section ActionRuns.

Context {W : Type} {P : ProtonMail W}.

Ltac run_command :=
  unfold bind, get_client, set_label_for_messages, unset_label_for_messages,
    delete_messages, mark_messages_as_unread, console_print, call;
  repeat match goal with
    | |- context [match ?op ?w with pair _ _ => _ end] =>
        lazymatch op with
        | get_client_op => destruct (op w) as [? [[]|?]]
        | _resolve_refs _ => destruct (op w) as [[? ?] [?|?]]
        | set_label_for_messages_op _ _ => destruct (op w) as [? [[]|?]]
        | unset_label_for_messages_op _ _ => destruct (op w) as [? [[]|?]]
        | delete_messages_op _ => destruct (op w) as [? [[]|?]]
        | mark_messages_as_unread_op _ => destruct (op w) as [? [[]|?]]
        end; simpl
    end;
  rewrite <- ?app_assoc; try reflexivity.

Lemma archive_run (refs : list str) (w : W) :
  archive refs w =
    label_move_run (lit "4")
      (fun ids => lit "[green]Archived " ++ str_of_int (len ids) ++ lit " message(s).[/]")
      refs w.
Proof. unfold archive, label_move_run. run_command. Qed.

Lemma spam_run (refs : list str) (w : W) :
  spam refs w =
    label_move_run (lit "6")
      (fun ids => lit "[green]Marked " ++ str_of_int (len ids) ++ lit " message(s) as spam.[/]")
      refs w.
Proof. unfold spam, label_move_run. run_command. Qed.

Lemma star_run (refs : list str) (w : W) :
  star refs w =
    single_call_run (CSetLabel (lit "10")) (set_label_for_messages_op (lit "10"))
      (fun ids => lit "[green]Starred " ++ str_of_int (len ids) ++ lit " message(s).[/]")
      refs w.
Proof. unfold star, single_call_run. run_command. Qed.

Lemma delete_run (refs : list str) (w : W) :
  delete refs w =
    single_call_run CDeleteMessages delete_messages_op
      (fun ids => lit "[green]Deleted " ++ str_of_int (len ids) ++ lit " message(s).[/]")
      refs w.
Proof. unfold delete, single_call_run. run_command. Qed.

Lemma unread_run (refs : list str) (w : W) :
  unread refs w =
    single_call_run CMarkUnread mark_messages_as_unread_op
      (fun ids => lit "[green]Marked " ++ str_of_int (len ids) ++ lit " message(s) as unread.[/]")
      refs w.
Proof. unfold unread, single_call_run. run_command. Qed.

End ActionRuns.

(** ** The resolver on one reference *)

Lemma max_idx_of_singleton (ref : str) :
  is_index_ref ref = true -> max_idx_of [ref] = int_ ref.
Proof.
  intros H. unfold max_idx_of. simpl. rewrite H.
  now destruct (int_ ref).
Qed.

Lemma resolve_all_singleton (c : list Message) (ref : str) :
  resolve_all c [ref] =
    match resolve_ref c ref with
    | Ok i => Ok [i]
    | Raise e => Raise e
    end.
Proof. simpl. now destruct (resolve_ref c ref). Qed.

(** The resolver on a batch of one reference that passes the index test. *)
Lemma resolve_refs_one_index {W : Type} {P : ProtonMail W} (ref : str) (n : N) (w : W) :
  is_index_ref ref = true ->
  int_ ref = Ok n ->
  _resolve_refs [ref] w =
    match get_messages_op (n + 1) (lit "0") w with
    | (w', Raise e) => (w', [CGetMessages (n + 1) (lit "0")], Raise e)
    | (w', Ok c) =>
        (w', [CGetMessages (n + 1) (lit "0")],
         match nth_error c (N.to_nat n) with
         | Some m => Ok [id m]
         | None => Raise (batch_out_of_range n)
         end)
    end.
Proof.
  intros Hix Hn. rewrite resolve_refs_run. simpl existsb. rewrite Hix. simpl orb.
  rewrite (max_idx_of_singleton ref Hix), Hn.
  destruct (get_messages_op (n + 1) (lit "0") w) as [w' [c|e]]; [|reflexivity].
  rewrite resolve_all_singleton. unfold resolve_ref. rewrite Hix, Hn.
  destruct (len c <=? n) eqn:E.
  - apply len_leb_nth_error in E. now rewrite E.
  - destruct (getitem_in_range c n E) as [m [A B]]. now rewrite A, B.
Qed.

(** The resolver on a batch of one reference that fails the index test. *)
Lemma resolve_refs_one_durable {W : Type} {P : ProtonMail W} (ref : str) (w : W) :
  is_index_ref ref = false -> _resolve_refs [ref] w = (w, [], Ok [ref]).
Proof.
  intros Hix. rewrite resolve_refs_run. simpl existsb. now rewrite Hix.
Qed.

(** A reference that fails the index test comes out unchanged, at its
    position, of every batch that resolves. *)
Lemma durable_passes_through {W : Type} {P : ProtonMail W}
    (refs ids : list str) (w w' : W) (log : list Call) (i : nat) (s : str) :
  _resolve_refs refs w = (w', log, Ok ids) ->
  nth_error refs i = Some s ->
  is_index_ref s = false ->
  nth_error ids i = Some s.
Proof.
  rewrite resolve_refs_run. intros Hrun Hi Hs.
  assert (Hall : exists c, Forall2 (fun r x => resolve_ref c r = Ok x) refs ids).
  { destruct (existsb is_index_ref refs) eqn:Hex.
    - destruct (max_idx_of refs) as [m|e]; [|discriminate].
      destruct (get_messages_op (m + 1) (lit "0") w) as [w1 [c|e]]; [|discriminate].
      injection Hrun as _ _ Hr. exists c. now apply resolve_all_Forall2.
    - injection Hrun as _ _ <-. exists []. apply resolve_all_Forall2.
      now apply resolve_all_no_index. }
  destruct Hall as [c Hall]. clear Hrun. revert i Hi.
  induction Hall as [|r x refs ids Hr Hall IH]; intros i Hi.
  - now destruct i.
  - destruct i as [|i]; simpl in *.
    + injection Hi as ->. unfold resolve_ref in Hr. rewrite Hs in Hr. congruence.
    + now apply IH.
Qed.

Lemma resolve_ref_Ok (c : list Message) (r i : str) :
  resolve_ref c r = Ok i ->
  if is_index_ref r
  then exists n m, int_ r = Ok n /\ nth_error c (N.to_nat n) = Some m /\ i = id m
  else i = r.
Proof.
  unfold resolve_ref. destruct (is_index_ref r); [|congruence].
  destruct (int_ r) as [n|e]; [|discriminate].
  destruct (len c <=? n) eqn:E; [discriminate|].
  destruct (getitem_in_range c n E) as [m [A B]]. rewrite B.
  intros H; injection H as <-. now exists n, m.
Qed.

Lemma Forall2_nth_error_l {A B : Type} (R : A -> B -> Prop) (l1 : list A) (l2 : list B) :
  Forall2 R l1 l2 ->
  forall j a, nth_error l1 j = Some a -> exists b, nth_error l2 j = Some b /\ R a b.
Proof.
  induction 1 as [|x y l1 l2 Hxy _ IH]; intros j a Hj.
  - now destruct j.
  - destruct j as [|j]; simpl in *.
    + injection Hj as <-. now exists y.
    + now apply IH.
Qed.

(** A batch that resolves was resolved, reference by reference and in
    order, against one listing: the fetched one if anything was fetched. *)
Lemma resolve_refs_Ok {W : Type} {P : ProtonMail W}
    (refs ids : list str) (w w' : W) (log : list Call) :
  _resolve_refs refs w = (w', log, Ok ids) ->
  exists snapshot,
    (log = [] \/
     exists m, log = [CGetMessages (m + 1) (lit "0")]
               /\ get_messages_op (m + 1) (lit "0") w = (w', Ok snapshot))
    /\ Forall2 (fun r i => resolve_ref snapshot r = Ok i) refs ids.
Proof.
  rewrite resolve_refs_run. intros Hrun.
  destruct (existsb is_index_ref refs) eqn:Hex.
  - destruct (max_idx_of refs) as [m|e]; [|discriminate].
    destruct (get_messages_op (m + 1) (lit "0") w) as [w1 [c|e]] eqn:Hget; [|discriminate].
    injection Hrun as <- <- Hr. exists c. split.
    + right. exists m. now split.
    + now apply resolve_all_Forall2.
  - injection Hrun as _ <- <-. exists []. split; [now left|].
    apply resolve_all_Forall2. now apply resolve_all_no_index.
Qed.

(** ** The claims *)






(** C3.  When a batch resolves, the identifiers come out one per
    reference and in the order of the references: a reference that is not
    an index as itself, an index as the identifier at that position of the
    one listing that was fetched; so the same reference at two positions
    gives the same identifier at both. *)
Theorem resolution_preserves_order_and_multiplicity
    {W : Type} {P : ProtonMail W}
    (refs ids : list str) (w w' : W) (log : list Call) :
  _resolve_refs refs w = (w', log, Ok ids) ->
  List.length ids = List.length refs
  /\ (exists snapshot,
        (log = [] \/
         exists m, log = [CGetMessages (m + 1) (lit "0")]
                   /\ get_messages_op (m + 1) (lit "0") w = (w', Ok snapshot))
        /\ Forall2 (fun r i =>
                      if is_index_ref r
                      then exists n m, int_ r = Ok n
                                       /\ nth_error snapshot (N.to_nat n) = Some m
                                       /\ i = id m
                      else i = r) refs ids)
  /\ (forall j k r, nth_error refs j = Some r -> nth_error refs k = Some r ->
                    nth_error ids j = nth_error ids k).
Proof.
  intros Hrun. destruct (resolve_refs_Ok refs ids w w' log Hrun) as [c [Hlog Hall]].
  split; [symmetry; exact (Forall2_length Hall)|]. split.
  - exists c. split; [exact Hlog|].
    eapply Forall2_impl; [|exact Hall]. intros r i. apply resolve_ref_Ok.
  - intros j k r Hj Hk.
    destruct (Forall2_nth_error_l _ _ _ Hall j r Hj) as [x [Hx Rx]].
    destruct (Forall2_nth_error_l _ _ _ Hall k r Hk) as [y [Hy Ry]].
    rewrite Hx, Hy. congruence.
Qed.

(** The batch ["3"; "3"; "abc123"] against a four-message inbox. *)
Lemma resolution_preserves_order_and_multiplicity_witness :
  _resolve_refs [lit "3"; lit "3"; lit "abc123"] (healthy four_messages)
  = (healthy four_messages, [CGetMessages 4 (lit "0")],
     Ok [lit "idD"; lit "idD"; lit "abc123"])
  /\ List.length [lit "idD"; lit "idD"; lit "abc123"]
     = List.length [lit "3"; lit "3"; lit "abc123"].
Proof.
  split; [reflexivity|].
  exact (proj1 (resolution_preserves_order_and_multiplicity
                  [lit "3"; lit "3"; lit "abc123"]
                  [lit "idD"; lit "idD"; lit "abc123"]
                  (healthy four_messages) (healthy four_messages)
                  [CGetMessages 4 (lit "0")] eq_refl)).
Defined.

(** *** Fetches *)

Lemma is_index_ref_int (r : str) :
  no_other_digit r = true -> is_index_ref r = true -> exists n, int_ r = Ok n.
Proof.
  intros Hclean Hix.
  destruct (proj1 (is_index_ref_without_other r Hclean) Hix) as [Hne Hsp].
  apply int_all_decimal; [exact Hne|].
  unfold spec_index in Hsp. now apply andb_true_iff in Hsp.
Qed.

Lemma index_values_without_other (refs : list str) :
  Forall (fun r => no_other_digit r = true) refs ->
  exists l, index_values refs = Ok l
            /\ (existsb is_index_ref refs = true -> l <> []).
Proof.
  induction 1 as [|r refs Hr _ [l [Hl Hne]]]; simpl.
  - exists []. split; [reflexivity | discriminate].
  - destruct (is_index_ref r) eqn:Hix; simpl.
    + destruct (is_index_ref_int r Hr Hix) as [n Hn]. rewrite Hn, Hl.
      exists (n :: l). split; [reflexivity | discriminate].
    + exists l. now split.
Qed.

Lemma max_idx_of_without_other (refs : list str) :
  Forall (fun r => no_other_digit r = true) refs ->
  existsb is_index_ref refs = true ->
  exists m, max_idx_of refs = Ok m.
Proof.
  intros Hclean Hex.
  destruct (index_values_without_other refs Hclean) as [l [Hl Hne]].
  unfold max_idx_of. rewrite Hl. destruct l as [|x l]; [now elim (Hne Hex)|].
  simpl. eauto.
Qed.

(** On a batch without superscript-like digits the resolver fetches the
    inbox exactly once when some reference is an index, asking for one
    entry more than the largest index, and never otherwise. *)
Lemma fetches_once_without_other_digits {W : Type} {P : ProtonMail W}
    (refs : list str) (w : W) :
  Forall (fun r => no_other_digit r = true) refs ->
  if existsb is_index_ref refs
  then exists m, max_idx_of refs = Ok m
                 /\ log_of (_resolve_refs refs w) = [CGetMessages (m + 1) (lit "0")]
                 /\ forall r, In r refs -> is_index_ref r = true ->
                              exists n, int_ r = Ok n /\ n + 1 <= m + 1
  else log_of (_resolve_refs refs w) = [].
Proof.
  intros Hclean. rewrite resolve_refs_run.
  destruct (existsb is_index_ref refs) eqn:Hex; [|reflexivity].
  destruct (max_idx_of_without_other refs Hclean Hex) as [m Hm].
  exists m. split; [exact Hm|]. rewrite Hm. split.
  - now destruct (get_messages_op (m + 1) (lit "0") w) as [w' [c|e]].
  - intros r Hin Hix.
    destruct (proj2 (max_idx_of_spec refs m Hm) r Hin Hix) as [n [A B]].
    exists n. split; [exact A | lia].
Qed.

(** Whatever the batch, the resolver calls nothing but at most one fetch. *)
Lemma resolve_refs_log {W : Type} {P : ProtonMail W} (refs : list str) (w : W) :
  log_of (_resolve_refs refs w) = []
  \/ exists m, log_of (_resolve_refs refs w) = [CGetMessages (m + 1) (lit "0")].
Proof.
  rewrite resolve_refs_run.
  destruct (existsb is_index_ref refs); [|now left].
  destruct (max_idx_of refs) as [m|e]; [|now left].
  right. exists m.
  now destruct (get_messages_op (m + 1) (lit "0") w) as [w' [c|e]].
Qed.

Lemma resolve_refs_no_mutation {W : Type} {P : ProtonMail W}
    (refs : list str) (w w' : W) (log : list Call) (r : result (list str)) :
  _resolve_refs refs w = (w', log, r) ->
  mutation_calls log = [] /\ printed log = [].
Proof.
  intros Hrun. pose proof (resolve_refs_log refs w) as H.
  rewrite Hrun in H. unfold log_of in H. simpl in H.
  destruct H as [->|[m ->]]; now split.
Qed.

(** C2, at the batch ["1"; "²"].  The first reference is an index, and
    the resolver fetches nothing: [int] raises on the superscript two,
    which passes [isdigit], while [max_idx] is being computed. *)
Theorem no_fetch_when_a_reference_is_a_superscript_digit
    {W : Type} {P : ProtonMail W} (w : W) :
  is_index_ref (lit "1") = true
  /\ spec_index (lit "1") = true
  /\ isdigit [178] = true
  /\ Unicode.is_decimal 178 = false
  /\ _resolve_refs [lit "1"; [178]] w = (w, [], Raise (invalid_literal [178]))
  /\ fetch_calls (log_of (_resolve_refs [lit "1"; [178]] w)) = [].
Proof.
  assert (H : _resolve_refs [lit "1"; [178]] w = (w, [], Raise (invalid_literal [178]))).
  { rewrite resolve_refs_run. reflexivity. }
  rewrite H. repeat split.
Qed.

(** *** The out-of-range error *)

(** On a batch without superscript-like digits, an index at or beyond the
    length of the listing makes the resolution raise the out-of-range
    error of the first such index. *)
Lemma resolve_all_out_of_range (c : list Message) (refs : list str) :
  Forall (fun r => no_other_digit r = true) refs ->
  (exists r n, In r refs /\ is_index_ref r = true /\ int_ r = Ok n /\ len c <= n) ->
  exists r n, In r refs /\ is_index_ref r = true /\ int_ r = Ok n /\ len c <= n
              /\ resolve_all c refs = Raise (batch_out_of_range n).
Proof.
  induction 1 as [|r0 refs Hr0 Hclean IH]; intros [r [n [Hin [Hix [Hn Hle]]]]].
  - destruct Hin.
  - simpl. unfold resolve_ref at 1.
    destruct (is_index_ref r0) eqn:Hix0.
    + destruct (is_index_ref_int r0 Hr0 Hix0) as [n0 Hn0]. rewrite Hn0.
      destruct (len c <=? n0) eqn:E.
      * exists r0, n0. apply N.leb_le in E. repeat split; auto using in_eq.
      * destruct (getitem_in_range c n0 E) as [m [_ Hm]]. rewrite Hm.
        assert (Htail : exists r n, In r refs /\ is_index_ref r = true
                                    /\ int_ r = Ok n /\ len c <= n).
        { destruct Hin as [<-|Hin]; [|now exists r, n].
          apply N.leb_gt in E. rewrite Hn0 in Hn. injection Hn as <-. lia. }
        destruct (IH Htail) as [r' [n' [A [B [C [D F]]]]]].
        exists r', n'. rewrite F. repeat split; auto using in_cons.
    + assert (Htail : exists r n, In r refs /\ is_index_ref r = true
                                  /\ int_ r = Ok n /\ len c <= n).
      { destruct Hin as [<-|Hin]; [congruence | now exists r, n]. }
      destruct (IH Htail) as [r' [n' [A [B [C [D F]]]]]].
      exists r', n'. rewrite F. repeat split; auto using in_cons.
Qed.

(** The same for a run of the resolver whose fetch returned. *)
Lemma resolve_refs_out_of_range {W : Type} {P : ProtonMail W}
    (refs : list str) (w w' : W) (m : N) (c : list Message) :
  Forall (fun r => no_other_digit r = true) refs ->
  max_idx_of refs = Ok m ->
  get_messages_op (m + 1) (lit "0") w = (w', Ok c) ->
  (exists r n, In r refs /\ is_index_ref r = true /\ int_ r = Ok n /\ len c <= n) ->
  exists n, len c <= n
            /\ _resolve_refs refs w
               = (w', [CGetMessages (m + 1) (lit "0")], Raise (batch_out_of_range n)).
Proof.
  intros Hclean Hm Hget Hex.
  destruct (resolve_all_out_of_range c refs Hclean Hex) as [r [n [A [B [C [D F]]]]]].
  exists n. split; [exact D|]. rewrite resolve_refs_run.
  assert (Hix : existsb is_index_ref refs = true).
  { apply existsb_exists. now exists r. }
  now rewrite Hix, Hm, Hget, F.
Qed.

(** C6, at the batch ["9"] against a four-message inbox.  The resolver
    raises [SystemExit] with the text "Index 9 out of range", which names
    the index and not the length of the listing: a five-message inbox
    gives the very same error.  The resolution in [read] names both. *)
Theorem out_of_range_error_omits_the_length :
  _resolve_refs [lit "9"] (healthy four_messages)
  = (healthy four_messages, [CGetMessages 10 (lit "0")],
     Raise (SystemExit (lit "Index 9 out of range")))
  /\ outcome_of (_resolve_refs [lit "9"] (healthy five_messages))
     = outcome_of (_resolve_refs [lit "9"] (healthy four_messages))
  /\ outcome_of (read_msg_id (lit "9") (healthy four_messages))
     = Raise (SystemExit (lit "Index 9 out of range (have 4 messages)"))
  /\ outcome_of (read_msg_id (lit "9") (healthy five_messages))
     = Raise (SystemExit (lit "Index 9 out of range (have 5 messages)")).
Proof. repeat split. Qed.

(** *** The action commands *)

Lemma mutation_calls_app (l1 l2 : list Call) :
  mutation_calls (l1 ++ l2) = mutation_calls l1 ++ mutation_calls l2.
Proof. apply filter_app. Qed.

Lemma printed_app (l1 l2 : list Call) : printed (l1 ++ l2) = printed l1 ++ printed l2.
Proof. apply filter_app. Qed.

(** The mutation calls of a two-call command: none, only the add-label
    call, or the add-label call and then the remove-label call. *)
Lemma label_move_mutations {W : Type} {P : ProtonMail W}
    (add_label : str) (text : list str -> str) (refs : list str) (w : W) :
  let calls := mutation_calls (log_of (label_move_run add_label text refs w)) in
  calls = []
  \/ exists ids, calls = [CSetLabel add_label ids]
                 \/ calls = [CSetLabel add_label ids; CUnsetLabel (lit "0") ids].
Proof.
  unfold label_move_run.
  destruct (get_client_op w) as [w1 [[]|e]]; [|now left].
  destruct (_resolve_refs refs w1) as [[w2 l] [ids|e]] eqn:Hres;
    destruct (resolve_refs_no_mutation refs w1 w2 l _ Hres) as [Hm _].
  - right. exists ids.
    destruct (set_label_for_messages_op add_label ids w2) as [w3 [[]|e]].
    + right.
      destruct (unset_label_for_messages_op (lit "0") ids w3) as [w4 [[]|e]];
        unfold log_of; simpl; change (filter is_mutation) with mutation_calls;
        now rewrite mutation_calls_app, Hm.
    + left. unfold log_of; simpl; change (filter is_mutation) with mutation_calls.
      now rewrite mutation_calls_app, Hm.
  - left. unfold log_of; simpl. exact Hm.
Qed.

(** Once the batch has resolved, the add-label call is issued, and the
    remove-label call follows it exactly when it returned. *)
Lemma label_move_mutations_resolved {W : Type} {P : ProtonMail W}
    (add_label : str) (text : list str -> str) (refs ids : list str)
    (w w1 w2 : W) (log : list Call) :
  get_client_op w = (w1, Ok tt) ->
  _resolve_refs refs w1 = (w2, log, Ok ids) ->
  mutation_calls (log_of (label_move_run add_label text refs w))
  = CSetLabel add_label ids ::
    match set_label_for_messages_op add_label ids w2 with
    | (_, Ok _) => [CUnsetLabel (lit "0") ids]
    | (_, Raise _) => []
    end.
Proof.
  intros Hc Hr. unfold label_move_run. rewrite Hc, Hr.
  destruct (resolve_refs_no_mutation refs w1 w2 log _ Hr) as [Hm _].
  destruct (set_label_for_messages_op add_label ids w2) as [w3 [[]|e]].
  - destruct (unset_label_for_messages_op (lit "0") ids w3) as [w4 [[]|e]];
      unfold log_of; simpl; change (filter is_mutation) with mutation_calls;
      now rewrite mutation_calls_app, Hm.
  - unfold log_of; simpl; change (filter is_mutation) with mutation_calls.
    now rewrite mutation_calls_app, Hm.
Qed.

(** C5.  Whatever the references and the collaborator, the mutation calls
    of [archive] are a prefix of: apply label "4" (Archive), remove label
    "0" (Inbox); those of [spam] a prefix of: apply label "6" (Spam),
    remove label "0" (Inbox); so the remove-label call is never issued
    without the add-label call before it.  And for every resolved
    identifier set the add-label call is issued, first, and the
    remove-label call right after it once it has returned. *)
Theorem add_label_precedes_remove_label
    {W : Type} {P : ProtonMail W} (refs : list str) (w : W) :
  (let calls := mutation_calls (log_of (archive refs w)) in
   calls = []
   \/ exists ids, calls = [CSetLabel (lit "4") ids]
                  \/ calls = [CSetLabel (lit "4") ids; CUnsetLabel (lit "0") ids])
  /\ (let calls := mutation_calls (log_of (spam refs w)) in
      calls = []
      \/ exists ids, calls = [CSetLabel (lit "6") ids]
                     \/ calls = [CSetLabel (lit "6") ids; CUnsetLabel (lit "0") ids])
  /\ dict_get SYSTEM_LABELS (lit "4") = Some (lit "Archive")
  /\ dict_get SYSTEM_LABELS (lit "6") = Some (lit "Spam")
  /\ dict_get SYSTEM_LABELS (lit "0") = Some (lit "Inbox")
  /\ (forall (w1 w2 : W) (log : list Call) (ids : list str),
        get_client_op w = (w1, Ok tt) ->
        _resolve_refs refs w1 = (w2, log, Ok ids) ->
        mutation_calls (log_of (archive refs w))
        = CSetLabel (lit "4") ids ::
          match set_label_for_messages_op (lit "4") ids w2 with
          | (_, Ok _) => [CUnsetLabel (lit "0") ids]
          | (_, Raise _) => []
          end
        /\ mutation_calls (log_of (spam refs w))
           = CSetLabel (lit "6") ids ::
             match set_label_for_messages_op (lit "6") ids w2 with
             | (_, Ok _) => [CUnsetLabel (lit "0") ids]
             | (_, Raise _) => []
             end).
Proof.
  split; [|split; [|repeat split]].
  - rewrite archive_run. apply label_move_mutations.
  - rewrite spam_run. apply label_move_mutations.
  - rewrite archive_run. now apply label_move_mutations_resolved with (w1 := w1) (log := log).
  - rewrite spam_run. now apply label_move_mutations_resolved with (w1 := w1) (log := log).
Qed.

(** [archive 1 abc] against a four-message inbox. *)
Lemma add_label_precedes_remove_label_witness :
  get_client_op (healthy four_messages) = (healthy four_messages, Ok tt)
  /\ _resolve_refs [lit "1"; lit "abc"] (healthy four_messages)
     = (healthy four_messages, [CGetMessages 2 (lit "0")], Ok [lit "idB"; lit "abc"])
  /\ mutation_calls (log_of (archive [lit "1"; lit "abc"] (healthy four_messages)))
     = [CSetLabel (lit "4") [lit "idB"; lit "abc"];
        CUnsetLabel (lit "0") [lit "idB"; lit "abc"]].
Proof.
  split; [reflexivity|]. split; [reflexivity|].
  exact (proj1 (proj2 (proj2 (proj2 (proj2 (proj2
           (add_label_precedes_remove_label [lit "1"; lit "abc"]
              (healthy four_messages))))))
           (healthy four_messages) (healthy four_messages)
           [CGetMessages 2 (lit "0")] [lit "idB"; lit "abc"] eq_refl eq_refl)).
Defined.

(** The mutation calls of a one-call command: none, or that call. *)
Lemma single_call_mutations {W : Type} {P : ProtonMail W}
    (c : list str -> Call) (op : list str -> W -> W * result unit)
    (text : list str -> str) (refs : list str) (w : W) :
  (forall ids, is_mutation (c ids) = true) ->
  let calls := mutation_calls (log_of (single_call_run c op text refs w)) in
  calls = [] \/ exists ids, calls = [c ids].
Proof.
  intros Hc. unfold single_call_run.
  destruct (get_client_op w) as [w1 [[]|e]]; [|now left].
  destruct (_resolve_refs refs w1) as [[w2 l] [ids|e]] eqn:Hres;
    destruct (resolve_refs_no_mutation refs w1 w2 l _ Hres) as [Hm _].
  - right. exists ids.
    destruct (op ids w2) as [w3 [[]|e]];
      unfold log_of; simpl; change (filter is_mutation) with mutation_calls;
      rewrite mutation_calls_app, Hm; simpl; now rewrite Hc.
  - left. unfold log_of; simpl. exact Hm.
Qed.

(** C4, on every batch and at the batch ["abc"].  [star] issues at most
    one mutation call, and that call applies label "10"; the label table
    of the repository names "10" Scheduled, and Starred is "3". *)
Theorem star_applies_label_10 {W : Type} {P : ProtonMail W} (refs : list str) (w : W) :
  (let calls := mutation_calls (log_of (star refs w)) in
   calls = [] \/ exists ids, calls = [CSetLabel (lit "10") ids])
  /\ dict_get SYSTEM_LABELS (lit "10") = Some (lit "Scheduled")
  /\ dict_get SYSTEM_LABELS (lit "3") = Some (lit "Starred")
  /\ star [lit "abc"] (healthy four_messages)
     = (healthy four_messages,
        [CGetClient; CSetLabel (lit "10") [lit "abc"];
         CPrint (lit "[green]Starred 1 message(s).[/]")],
        Ok tt).
Proof.
  split; [|repeat split].
  rewrite star_run. now apply single_call_mutations.
Qed.

(** C7.  For each of the five action commands: when the client is there
    and the resolution of the batch raises, the command ends with that
    exception, having called nothing beyond the resolver's own fetch; no
    mutation call is in its log. *)
Theorem no_mutation_when_resolution_fails
    {W : Type} {P : ProtonMail W} (a : Action) (refs : list str)
    (w w1 w2 : W) (log : list Call) (e : Exn) :
  get_client_op w = (w1, Ok tt) ->
  _resolve_refs refs w1 = (w2, log, Raise e) ->
  action_command a refs w = (w2, CGetClient :: log, Raise e)
  /\ mutation_calls (log_of (action_command a refs w)) = [].
Proof.
  intros Hc Hr.
  assert (H : action_command a refs w = (w2, CGetClient :: log, Raise e)).
  { destruct a; simpl;
      [rewrite delete_run | rewrite archive_run | rewrite spam_run
      | rewrite star_run | rewrite unread_run];
      unfold single_call_run, label_move_run; now rewrite Hc, Hr. }
  split; [exact H|]. rewrite H. unfold log_of; simpl.
  exact (proj1 (resolve_refs_no_mutation refs w1 w2 log _ Hr)).
Qed.

(** [delete 0 9] against a four-message inbox: the index 9 is out of
    range. *)
Lemma no_mutation_when_resolution_fails_witness :
  get_client_op (healthy four_messages) = (healthy four_messages, Ok tt)
  /\ _resolve_refs [lit "0"; lit "9"] (healthy four_messages)
     = (healthy four_messages, [CGetMessages 10 (lit "0")], Raise (batch_out_of_range 9))
  /\ action_command Delete [lit "0"; lit "9"] (healthy four_messages)
     = (healthy four_messages, [CGetClient; CGetMessages 10 (lit "0")],
        Raise (batch_out_of_range 9))
  /\ mutation_calls (log_of (action_command Delete [lit "0"; lit "9"]
                               (healthy four_messages))) = [].
Proof.
  split; [reflexivity|]. split; [reflexivity|].
  exact (no_mutation_when_resolution_fails Delete [lit "0"; lit "9"]
           (healthy four_messages) (healthy four_messages) (healthy four_messages)
           [CGetMessages 10 (lit "0")] (batch_out_of_range 9) eq_refl eq_refl).
Defined.

(** C8, as amended.  For [archive] (label "4") and [spam] (label "6"),
    once the client is there and the batch has resolved: if the add-label
    call returns and the remove-label call raises, the command ends with
    that very exception after the two calls and prints no success
    message; and a raising add-label call is reported in the same way,
    the exception it raised and nothing printed. *)
Theorem remove_label_failure_propagates
    {W : Type} {P : ProtonMail W} (a : Action) (add_label : str)
    (refs ids : list str) (w w1 w2 w3 : W) (log : list Call) :
  (a = Archive /\ add_label = lit "4") \/ (a = Spam /\ add_label = lit "6") ->
  get_client_op w = (w1, Ok tt) ->
  _resolve_refs refs w1 = (w2, log, Ok ids) ->
  (forall (w4 : W) (e : Exn),
      set_label_for_messages_op add_label ids w2 = (w3, Ok tt) ->
      unset_label_for_messages_op (lit "0") ids w3 = (w4, Raise e) ->
      action_command a refs w
      = (w4, CGetClient :: log ++ [CSetLabel add_label ids; CUnsetLabel (lit "0") ids],
         Raise e)
      /\ reported (action_command a refs w) = ([], Raise e))
  /\ (forall e : Exn,
        set_label_for_messages_op add_label ids w2 = (w3, Raise e) ->
        action_command a refs w
        = (w3, CGetClient :: log ++ [CSetLabel add_label ids], Raise e)
        /\ reported (action_command a refs w) = ([], Raise e)).
Proof.
  intros Ha Hc Hr.
  destruct (resolve_refs_no_mutation refs w1 w2 log _ Hr) as [_ Hp].
  assert (Hrun : exists text, action_command a refs w = label_move_run add_label text refs w).
  { destruct Ha as [[-> ->]|[-> ->]]; simpl;
      [rewrite archive_run | rewrite spam_run]; eauto. }
  destruct Hrun as [text Hrun]. rewrite Hrun. unfold label_move_run.
  rewrite Hc, Hr. split.
  - intros w4 e Hs Hu. rewrite Hs, Hu. split; [reflexivity|].
    unfold reported. change (CGetClient :: log ++ ?l) with ([CGetClient] ++ log ++ l).
    rewrite !printed_app, Hp. reflexivity.
  - intros e Hs. rewrite Hs. split; [reflexivity|].
    unfold reported. change (CGetClient :: log ++ ?l) with ([CGetClient] ++ log ++ l).
    rewrite !printed_app, Hp. reflexivity.
Qed.

(** [archive abc] on a mailbox whose remove-label call raises. *)
Lemma remove_label_failure_propagates_witness :
  ((Archive = Archive /\ lit "4" = lit "4") \/ (Archive = Spam /\ lit "4" = lit "6"))
  /\ get_client_op (remove_fails four_messages) = (remove_fails four_messages, Ok tt)
  /\ _resolve_refs [lit "abc"] (remove_fails four_messages)
     = (remove_fails four_messages, [], Ok [lit "abc"])
  /\ set_label_for_messages_op (lit "4") [lit "abc"] (remove_fails four_messages)
     = (remove_fails four_messages, Ok tt)
  /\ unset_label_for_messages_op (lit "0") [lit "abc"] (remove_fails four_messages)
     = (remove_fails four_messages, Raise (ClientError (lit "request failed")))
  /\ reported (action_command Archive [lit "abc"] (remove_fails four_messages))
     = ([], Raise (ClientError (lit "request failed"))).
Proof.
  split; [left; split; reflexivity|]. repeat (split; [reflexivity|]).
  exact (proj2 (proj1 (remove_label_failure_propagates Archive (lit "4")
                         [lit "abc"] [lit "abc"]
                         (remove_fails four_messages) (remove_fails four_messages)
                         (remove_fails four_messages) (remove_fails four_messages) []
                         (or_introl (conj eq_refl eq_refl)) eq_refl eq_refl)
                  (remove_fails four_messages) (ClientError (lit "request failed"))
                  eq_refl eq_refl)).
Defined.

(** C8 as stated fails at [archive abc]: on a mailbox whose add-label call
    returns and whose remove-label call raises, the label Archive is
    applied and Inbox is not removed, and what is reported is what is
    reported on a mailbox whose add-label call raises the same exception. *)
Lemma partial_failure_reported_as_clean_failure :
  mutation_calls (log_of (archive [lit "abc"] (remove_fails four_messages)))
  = [CSetLabel (lit "4") [lit "abc"]; CUnsetLabel (lit "0") [lit "abc"]]
  /\ mutation_calls (log_of (archive [lit "abc"] (add_fails four_messages)))
     = [CSetLabel (lit "4") [lit "abc"]]
  /\ reported (archive [lit "abc"] (remove_fails four_messages))
     = ([], Raise (ClientError (lit "request failed")))
  /\ reported (archive [lit "abc"] (remove_fails four_messages))
     = reported (archive [lit "abc"] (add_fails four_messages)).
Proof. repeat split. Qed.

(** *** The empty reference *)

Lemma index_values_skip (before after : list str) (r : str) :
  is_index_ref r = false ->
  index_values (before ++ r :: after) = index_values (before ++ after).
Proof.
  intros Hr. induction before as [|b before IH]; simpl.
  - now rewrite Hr.
  - now rewrite IH.
Qed.

Lemma existsb_skip (before after : list str) (r : str) :
  is_index_ref r = false ->
  existsb is_index_ref (before ++ r :: after) = existsb is_index_ref (before ++ after).
Proof.
  intros Hr. rewrite !existsb_app. simpl. now rewrite Hr.
Qed.

(** C9.  The empty string fails the index test; alone it comes out
    unchanged without any call; put anywhere into a batch it changes
    neither the calls of the resolver nor the world they leave; and it
    comes out unchanged, at its position, of every batch that resolves. *)
Theorem empty_reference_is_durable :
  is_index_ref (empty_str) = false
  /\ (forall (W : Type) (P : ProtonMail W) (w : W),
        _resolve_refs [empty_str] w = (w, [], Ok [empty_str]))
  /\ (forall (W : Type) (P : ProtonMail W) (before after : list str) (w : W),
        log_of (_resolve_refs (before ++ empty_str :: after) w)
        = log_of (_resolve_refs (before ++ after) w)
        /\ fst (fst (_resolve_refs (before ++ empty_str :: after) w))
           = fst (fst (_resolve_refs (before ++ after) w)))
  /\ (forall (W : Type) (P : ProtonMail W) (before after ids : list str)
             (w w' : W) (log : list Call),
        _resolve_refs (before ++ empty_str :: after) w = (w', log, Ok ids) ->
        nth_error ids (List.length before) = Some (empty_str)).
Proof.
  assert (He : is_index_ref (empty_str) = false) by reflexivity.
  split; [exact He|]. split; [|split].
  - intros W P w. now apply resolve_refs_one_durable.
  - intros W P before after w. rewrite !resolve_refs_run.
    rewrite (existsb_skip before after _ He). unfold max_idx_of.
    rewrite (index_values_skip before after _ He).
    destruct (existsb is_index_ref (before ++ after)); [|now split].
    destruct (index_values (before ++ after)) as [l|e]; [|now split].
    destruct (py_max l) as [m|e]; [|now split].
    now destruct (get_messages_op (m + 1) (lit "0") w) as [w' [c|e]].
  - intros W P before after ids w w' log Hrun.
    apply (durable_passes_through _ ids w w' log _ (empty_str) Hrun); [|exact He].
    now rewrite nth_error_app2, Nat.sub_diag.
Qed.

(** *** [read] and the batch of one *)

(** C10.  For every reference and every collaborator, the resolution at
    the head of [read] and the resolver on the batch of that one reference
    issue the same calls and leave the same world; one returns the
    identifier that the other returns alone in its list; one raises its
    out-of-range error exactly when the other raises its own, the listing
    being no longer than the index; and any other exception is the same
    in both. *)
Theorem read_agrees_with_singleton_batch
    {W : Type} {P : ProtonMail W} (ref : str) (w : W) :
  fst (fst (read_msg_id ref w)) = fst (fst (_resolve_refs [ref] w))
  /\ log_of (read_msg_id ref w) = log_of (_resolve_refs [ref] w)
  /\ same_outcome (outcome_of (read_msg_id ref w)) (outcome_of (_resolve_refs [ref] w)).
Proof.
  destruct (is_index_ref ref) eqn:Hix.
  - destruct (int_ ref) as [n|e] eqn:Hn.
    + rewrite (resolve_refs_one_index ref n w Hix Hn).
      unfold read_msg_id, bind, lift, get_messages, call, raise, ret.
      rewrite Hix, Hn.
      destruct (get_messages_op (n + 1) (lit "0") w) as [w' [c|e]]; simpl.
      * destruct (len c <=? n) eqn:E.
        -- pose proof (proj1 (len_leb_nth_error c n) E) as Hnone. rewrite Hnone.
           repeat split. apply same_out_of_range. now apply N.leb_le.
        -- destruct (getitem_in_range c n E) as [m [A B]]. rewrite A, B.
           repeat split. apply same_id.
      * repeat split. apply same_exception.
    + rewrite resolve_refs_run. simpl existsb. rewrite Hix. simpl orb.
      rewrite (max_idx_of_singleton ref Hix), Hn.
      unfold read_msg_id, bind, lift. rewrite Hix, Hn.
      repeat split. apply same_exception.
  - rewrite (resolve_refs_one_durable ref w Hix).
    unfold read_msg_id. rewrite Hix. repeat split. apply same_id.
Qed.

(** ** Escaping a body for [<pre>] *)

Lemma replace_char_app (old : N) (new a b : str) :
  replace_char old new (a ++ b) = replace_char old new a ++ replace_char old new b.
Proof. apply flat_map_app. Qed.

(** The three replacements, one after the other, are one substitution of
    each character: the ampersands of the entities written by the first
    are not touched by the other two. *)
Lemma escaped_flat_map (s : str) : escaped s = flat_map escape_char s.
Proof.
  unfold escaped. induction s as [|c s IH]; [reflexivity|].
  change (c :: s) with ([c] ++ s).
  rewrite flat_map_app, !replace_char_app, IH. f_equal.
  unfold escape_char; simpl.
  destruct (c =? amp) eqn:Ea; [reflexivity|]. simpl.
  destruct (c =? lt) eqn:El; [reflexivity|]. simpl.
  destruct (c =? gt) eqn:Eg; reflexivity.
Qed.

Lemma escaped_cons (c : N) (s : str) : escaped (c :: s) = escape_char c ++ escaped s.
Proof. now rewrite !escaped_flat_map. Qed.

Lemma escape_char_cases (c : N) :
  (c = amp /\ escape_char c = lit "&amp;")
  \/ (c = lt /\ escape_char c = lit "&lt;")
  \/ (c = gt /\ escape_char c = lit "&gt;")
  \/ (c <> amp /\ c <> lt /\ c <> gt /\ escape_char c = [c]).
Proof.
  unfold escape_char.
  destruct (N.eqb_spec c amp) as [->|Ha]; [now left|].
  destruct (N.eqb_spec c lt) as [->|Hl]; [now right; left|].
  destruct (N.eqb_spec c gt) as [->|Hg]; [now right; right; left|].
  now right; right; right.
Qed.

Lemma escape_char_no_angle (c x : N) : In x (escape_char c) -> x <> lt /\ x <> gt.
Proof.
  destruct (escape_char_cases c) as [[_ E]|[[_ E]|[[_ E]|[Ha [Hl [Hg E]]]]]];
    rewrite E; simpl; intros H;
    repeat (destruct H as [<-|H]; [split; (discriminate || assumption)|]);
    destruct H.
Qed.

(** Where an ampersand can sit in what one character becomes, followed by
    anything: at the head of an entity. *)
Lemma ampersand_in_token (c : N) (pre l rest : str) :
  escape_char c = pre ++ amp :: l ->
  startswith (l ++ rest) (lit "amp;") = true
  \/ startswith (l ++ rest) (lit "lt;") = true
  \/ startswith (l ++ rest) (lit "gt;") = true.
Proof.
  destruct (escape_char_cases c) as [[_ E]|[[_ E]|[[_ E]|[Ha [Hl [Hg E]]]]]];
    rewrite E; intros H.
  - destruct pre as [|? [|? [|? [|? [|? [|? ?]]]]]]; try discriminate H.
    injection H as <-. left. reflexivity.
  - destruct pre as [|? [|? [|? [|? [|? ?]]]]]; try discriminate H.
    injection H as <-. right; left. reflexivity.
  - destruct pre as [|? [|? [|? [|? [|? ?]]]]]; try discriminate H.
    injection H as <-. right; right. reflexivity.
  - destruct pre as [|? [|? ?]]; try discriminate H.
    injection H as H _. congruence.
Qed.

(** X1.  The escaped body holds no [<] and no [>], and each of its
    ampersands begins one of the entities [&amp;], [&lt;], [&gt;]. *)
Theorem escaped_has_no_markup (body : str) :
  (forall c, In c (escaped body) -> c <> lt /\ c <> gt)
  /\ (forall pre post,
        escaped body = pre ++ amp :: post ->
        startswith post (lit "amp;") = true
        \/ startswith post (lit "lt;") = true
        \/ startswith post (lit "gt;") = true).
Proof.
  split.
  - intros c. rewrite escaped_flat_map, in_flat_map.
    intros [x [_ Hx]]. now apply (escape_char_no_angle x).
  - induction body as [|c body IH]; intros pre post H.
    + now destruct pre.
    + rewrite escaped_cons in H. apply app_eq_app in H.
      destruct H as [l [[H1 H2]|[H1 H2]]].
      * destruct l as [|x l].
        -- simpl in H2. apply (IH [] post). now rewrite <- H2.
        -- injection H2 as <- ->. now apply (ampersand_in_token c pre).
      * now apply (IH l post).
Qed.

(** X2.  Escaping loses nothing: two bodies with the same escaped text are
    the same body. *)
Theorem escaped_is_injective (a b : str) : escaped a = escaped b -> a = b.
Proof.
  revert b; induction a as [|c a IH]; intros [|d b]; rewrite ?escaped_cons.
  - reflexivity.
  - intros H. symmetry in H. apply app_eq_nil in H. destruct H as [H _].
    destruct (escape_char_cases d) as [[_ E]|[[_ E]|[[_ E]|[_ [_ [_ E]]]]]];
      rewrite E in H; discriminate H.
  - intros H. apply app_eq_nil in H. destruct H as [H _].
    destruct (escape_char_cases c) as [[_ E]|[[_ E]|[[_ E]|[_ [_ [_ E]]]]]];
      rewrite E in H; discriminate H.
  - intros H.
    destruct (escape_char_cases c) as [[-> Ec]|[[-> Ec]|[[-> Ec]|[Ha [Hl [Hg Ec]]]]]];
      destruct (escape_char_cases d) as [[-> Ed]|[[-> Ed]|[[-> Ed]|[Ha' [Hl' [Hg' Ed]]]]]];
      try rewrite Ec in H; try rewrite Ed in H; simpl in H;
      try discriminate H;
      try (injection H as H; f_equal; now apply IH);
      try (exfalso; injection H as H0 _; unfold amp, lt, gt in *; congruence).
    injection H as -> H. f_equal. now apply IH.
Qed.

(** The body "a<b", written in two ways. *)
Lemma escaped_is_injective_witness :
  escaped (lit "a<b") = escaped (lit "a" ++ lit "<b")
  /\ lit "a<b" = lit "a" ++ lit "<b".
Proof.
  split; [reflexivity|].
  exact (escaped_is_injective (lit "a<b") (lit "a" ++ lit "<b") eq_refl).
Defined.

Lemma count_char_cons (x c : N) (s : str) :
  count_char x (c :: s) = ((if (x =? c)%N then 1 else 0) + count_char x s)%nat.
Proof. unfold count_char. simpl. now destruct (x =? c). Qed.

Lemma count_char_zero (x : N) (s : str) : count_char x s = 0%nat -> ~ In x s.
Proof.
  induction s as [|c s IH]; [intros _ []|].
  rewrite count_char_cons. destruct (N.eqb_spec x c) as [->|Hne]; [discriminate|].
  intros H [E|Hin]; [congruence | now apply IH].
Qed.

Lemma escaped_length (a : str) :
  List.length (escaped a)
  = (List.length a + 4 * count_char amp a + 3 * count_char lt a
     + 3 * count_char gt a)%nat.
Proof.
  induction a as [|c a IH]; [reflexivity|].
  rewrite escaped_cons, length_app, IH, !count_char_cons.
  destruct (escape_char_cases c) as [[-> E]|[[-> E]|[[-> E]|[Ha [Hl [Hg E]]]]]];
    rewrite E; simpl List.length.
  - simpl. lia.
  - simpl. lia.
  - simpl. lia.
  - assert ((amp =? c) = false) as -> by (apply N.eqb_neq; congruence).
    assert ((lt =? c) = false) as -> by (apply N.eqb_neq; congruence).
    assert ((gt =? c) = false) as -> by (apply N.eqb_neq; congruence).
    lia.
Qed.

(** X3.  Escaping a text in pieces is escaping it whole; each [&] adds
    four characters and each [<] or [>] three; and the texts that escaping
    leaves as they are, are those without any of the three. *)
Theorem escaped_composes (a b : str) :
  escaped (a ++ b) = escaped a ++ escaped b
  /\ List.length (escaped a)
     = (List.length a + 4 * count_char amp a + 3 * count_char lt a
        + 3 * count_char gt a)%nat
  /\ (escaped a = a <-> forall c, In c a -> c <> amp /\ c <> lt /\ c <> gt).
Proof.
  split; [|split].
  - rewrite !escaped_flat_map. apply flat_map_app.
  - apply escaped_length.
  - split.
    + intros H c Hin. pose proof (escaped_length a) as L. rewrite H in L.
      assert (Za : count_char amp a = 0%nat) by lia.
      assert (Zl : count_char lt a = 0%nat) by lia.
      assert (Zg : count_char gt a = 0%nat) by lia.
      repeat split; intros ->;
        [apply (count_char_zero _ _ Za) | apply (count_char_zero _ _ Zl)
        | apply (count_char_zero _ _ Zg)]; exact Hin.
    + induction a as [|c a IH]; intros H; [reflexivity|].
      rewrite escaped_cons, IH by (intros x Hx; apply H; now right).
      destruct (escape_char_cases c) as [[E _]|[[E _]|[[E _]|[_ [_ [_ E]]]]]].
      * destruct (H c (or_introl eq_refl)) as [Ha _]. congruence.
      * destruct (H c (or_introl eq_refl)) as [_ [Hl _]]. congruence.
      * destruct (H c (or_introl eq_refl)) as [_ [_ Hg]]. congruence.
      * now rewrite E.
Qed.

(** ** The subject and the recipients of a reply *)

(** X4.  The subject of a reply always starts with "Re:"; making it is
    idempotent; and it is the original subject exactly when that one
    starts with "Re:" already. *)
Theorem reply_subject_starts_with_Re (subject : str) :
  startswith (reply_subject subject) (lit "Re:") = true
  /\ reply_subject (reply_subject subject) = reply_subject subject
  /\ (reply_subject subject = subject <-> startswith subject (lit "Re:") = true).
Proof.
  assert (H1 : startswith (reply_subject subject) (lit "Re:") = true).
  { unfold reply_subject.
    destruct (startswith subject (lit "Re:")) eqn:E; [exact E | reflexivity]. }
  split; [exact H1|]. split.
  - unfold reply_subject at 1. now rewrite H1.
  - split.
    + intros E. now rewrite E in H1.
    + intros E. unfold reply_subject. now rewrite E.
Qed.

Lemma str_eqb_eq (a b : str) : str_eqb a b = true <-> a = b.
Proof.
  unfold str_eqb. destruct (list_eq_dec N.eq_dec a b); split; congruence.
Qed.

Lemma str_in_In (x : str) (s : list str) : str_in x s = true <-> In x s.
Proof.
  unfold str_in. rewrite existsb_exists. split.
  - intros [y [Hy E]]. apply str_eqb_eq in E. now subst.
  - intros H. exists x. split; [exact H | now apply str_eqb_eq].
Qed.

Lemma append_others_filter (lower : str -> str) (mine : list str)
    (rs : list UserMail) (acc : list str) :
  append_others lower mine rs acc
  = acc ++ map address
             (filter (fun r => negb (str_in (lower (address r)) mine)) rs).
Proof.
  revert acc; induction rs as [|r rs IH]; intros acc; simpl.
  - now rewrite app_nil_r.
  - destruct (negb (str_in (lower (address r)) mine)); rewrite IH; simpl.
    + now rewrite <- app_assoc.
    + reflexivity.
Qed.

(** X5.  The recipients of a reply start with the sender of the original,
    whoever that is.  Without [--all] there is nobody else and no CC.
    With [--all], the recipients and the CC of the original follow in
    their order, those left out whose address in lower case is, in lower
    case, an address of the account, and nobody else. *)
Theorem reply_recipients_spec (lower : str -> str) (original : Original)
    (account_addresses : list AccountAddress) :
  let mine := map (fun a => lower (email a)) account_addresses in
  let others rs :=
    map address (filter (fun r => negb (str_in (lower (address r)) mine)) rs) in
  reply_recipients lower false original account_addresses
  = ([address (sender original)], [])
  /\ reply_recipients lower true original account_addresses
     = (address (sender original) :: others (recipients original),
        others (cc original))
  /\ (forall x, In x (others (recipients original) ++ others (cc original)) ->
                ~ In (lower x) mine)
  /\ (forall r, In r (recipients original) -> ~ In (lower (address r)) mine ->
                In (address r) (others (recipients original)))
  /\ (forall r, In r (cc original) -> ~ In (lower (address r)) mine ->
                In (address r) (others (cc original))).
Proof.
  intros mine others.
  assert (Hin : forall rs x, In x (others rs) -> ~ In (lower x) mine).
  { intros rs x. unfold others. rewrite in_map_iff.
    intros [r [<- Hr]]. apply filter_In in Hr. destruct Hr as [_ Hr].
    apply negb_true_iff in Hr. intros Hm. apply str_in_In in Hm. congruence. }
  assert (Hkeep : forall rs r, In r rs -> ~ In (lower (address r)) mine ->
                               In (address r) (others rs)).
  { intros rs r Hr Hn. unfold others. apply in_map. apply filter_In.
    split; [exact Hr|]. apply negb_true_iff.
    destruct (str_in (lower (address r)) mine) eqn:E; [|reflexivity].
    apply str_in_In in E. contradiction. }
  split; [reflexivity|]. split; [|split; [|split]].
  - unfold reply_recipients. now rewrite !append_others_filter.
  - intros x Hx. apply in_app_or in Hx. destruct Hx as [Hx|Hx]; eapply Hin; eauto.
  - apply Hkeep.
  - apply Hkeep.
Qed.

(** ** The resolution in [reply], [forward] and [download] *)

(** X6.  The resolution at the head of [reply], [forward] and [download]
    is the resolver on the batch of that one reference: the same calls,
    the same world, the same identifier and the same exception, the text
    of the out-of-range error included. *)
Theorem reply_resolution_is_singleton_batch
    {W : Type} {P : ProtonMail W} (ref : str) (w : W) :
  fst (fst (reply_msg_id ref w)) = fst (fst (_resolve_refs [ref] w))
  /\ log_of (reply_msg_id ref w) = log_of (_resolve_refs [ref] w)
  /\ outcome_of (_resolve_refs [ref] w)
     = match outcome_of (reply_msg_id ref w) with
       | Ok i => Ok [i]
       | Raise e => Raise e
       end.
Proof.
  destruct (is_index_ref ref) eqn:Hix.
  - destruct (int_ ref) as [n|e] eqn:Hn.
    + rewrite (resolve_refs_one_index ref n w Hix Hn).
      unfold reply_msg_id, bind, lift, get_messages, call, raise, ret.
      rewrite Hix, Hn.
      destruct (get_messages_op (n + 1) (lit "0") w) as [w' [c|e]]; simpl.
      * destruct (len c <=? n) eqn:E.
        -- pose proof (proj1 (len_leb_nth_error c n) E) as Hnone. rewrite Hnone.
           repeat split.
        -- destruct (getitem_in_range c n E) as [m [A B]]. rewrite A, B.
           repeat split.
      * repeat split.
    + rewrite resolve_refs_run. simpl existsb. rewrite Hix. simpl orb.
      rewrite (max_idx_of_singleton ref Hix), Hn.
      unfold reply_msg_id, bind, lift. rewrite Hix, Hn. repeat split.
  - rewrite (resolve_refs_one_durable ref w Hix).
    unfold reply_msg_id. rewrite Hix. repeat split.
Qed.

(** ** More on the resolver *)

(** X7.  A batch in which no reference passes the index test comes back
    as it is: nothing is called and the world is left alone. *)
Theorem durable_batch_is_returned_unchanged
    {W : Type} {P : ProtonMail W} (refs : list str) (w : W) :
  (forall r, In r refs -> is_index_ref r = false) ->
  _resolve_refs refs w = (w, [], Ok refs).
Proof.
  intros H. rewrite resolve_refs_run.
  destruct (existsb is_index_ref refs) eqn:E; [|reflexivity].
  apply existsb_exists in E. destruct E as [r [Hin Hr]].
  rewrite (H r Hin) in Hr. discriminate.
Qed.

(** The batch ["abc123"; ""; "12345"]. *)
Lemma durable_batch_is_returned_unchanged_witness :
  (forall r, In r [lit "abc123"; empty_str; lit "12345"] -> is_index_ref r = false)
  /\ _resolve_refs [lit "abc123"; empty_str; lit "12345"] (healthy four_messages)
     = (healthy four_messages, [], Ok [lit "abc123"; empty_str; lit "12345"]).
Proof.
  assert (H : forall r, In r [lit "abc123"; empty_str; lit "12345"] ->
                        is_index_ref r = false).
  { intros r [<-|[<-|[<-|[]]]]; reflexivity. }
  split; [exact H|].
  exact (durable_batch_is_returned_unchanged _ (healthy four_messages) H).
Defined.

(** X8.  On a batch whose references hold no digit that is not decimal,
    and one of which is an index, the resolver fetches the inbox exactly
    once, whether the batch then resolves or not; the page size asked for
    is one more than the value of one of the indices, and that value is
    the largest of all. *)
Theorem index_batch_fetches_once
    {W : Type} {P : ProtonMail W} (refs : list str) (w : W) :
  Forall (fun r => no_other_digit r = true) refs ->
  existsb is_index_ref refs = true ->
  exists m,
    log_of (_resolve_refs refs w) = [CGetMessages (m + 1) (lit "0")]
    /\ (exists r, In r refs /\ is_index_ref r = true /\ int_ r = Ok m)
    /\ (forall r, In r refs -> is_index_ref r = true ->
                  exists n, int_ r = Ok n /\ n <= m).
Proof.
  intros Hclean Hex.
  destruct (max_idx_of_without_other refs Hclean Hex) as [m Hm].
  exists m. destruct (max_idx_of_spec refs m Hm) as [Hatt Hbound].
  split; [|now split].
  rewrite resolve_refs_run, Hex, Hm.
  now destruct (get_messages_op (m + 1) (lit "0") w) as [w' [c|e]].
Qed.

(** The batch ["0"; "2"; "xyz"]. *)
Lemma index_batch_fetches_once_witness :
  Forall (fun r => no_other_digit r = true) [lit "0"; lit "2"; lit "xyz"]
  /\ existsb is_index_ref [lit "0"; lit "2"; lit "xyz"] = true
  /\ exists m,
       log_of (_resolve_refs [lit "0"; lit "2"; lit "xyz"] (healthy four_messages))
       = [CGetMessages (m + 1) (lit "0")]
       /\ (exists r, In r [lit "0"; lit "2"; lit "xyz"]
                     /\ is_index_ref r = true /\ int_ r = Ok m)
       /\ (forall r, In r [lit "0"; lit "2"; lit "xyz"] -> is_index_ref r = true ->
                     exists n, int_ r = Ok n /\ n <= m).
Proof.
  assert (H : Forall (fun r => no_other_digit r = true) [lit "0"; lit "2"; lit "xyz"]).
  { repeat constructor. }
  split; [exact H|]. split; [reflexivity|].
  exact (index_batch_fetches_once _ (healthy four_messages) H eq_refl).
Defined.

(** The first index of a batch that is not within the listing: every
    index before it is within, and the resolution raises its error. *)
Lemma resolve_all_first_out_of_range (c : list Message) (refs : list str) :
  Forall (fun r => no_other_digit r = true) refs ->
  (exists r n, In r refs /\ is_index_ref r = true /\ int_ r = Ok n /\ len c <= n) ->
  exists before r after n,
    refs = before ++ r :: after
    /\ (forall r', In r' before -> is_index_ref r' = true ->
                   exists n', int_ r' = Ok n' /\ n' < len c)
    /\ is_index_ref r = true /\ int_ r = Ok n /\ len c <= n
    /\ resolve_all c refs = Raise (batch_out_of_range n).
Proof.
  induction 1 as [|r0 refs Hr0 Hclean IH]; intros [r [n [Hin [Hix [Hn Hle]]]]].
  - destruct Hin.
  - destruct (is_index_ref r0) eqn:Hix0.
    + destruct (is_index_ref_int r0 Hr0 Hix0) as [n0 Hn0].
      destruct (len c <=? n0) eqn:E.
      * exists [], r0, refs, n0. apply N.leb_le in E.
        split; [reflexivity|]. split; [intros r' []|].
        split; [exact Hix0|]. split; [exact Hn0|]. split; [exact E|].
        simpl. unfold resolve_ref. now rewrite Hix0, Hn0, (proj2 (N.leb_le _ _) E).
      * assert (Htail : exists r n, In r refs /\ is_index_ref r = true
                                    /\ int_ r = Ok n /\ len c <= n).
        { destruct Hin as [<-|Hin]; [|now exists r, n].
          apply N.leb_gt in E. rewrite Hn0 in Hn. injection Hn as <-. lia. }
        destruct (IH Htail) as [before [r1 [after [n1 [A [B [C [D [F G]]]]]]]]].
        exists (r0 :: before), r1, after, n1.
        split; [now rewrite A|]. split.
        { intros r' [<-|Hr'] Hi'; [|now apply B].
          exists n0. split; [exact Hn0 | now apply N.leb_gt]. }
        split; [exact C|]. split; [exact D|]. split; [exact F|].
        destruct (getitem_in_range c n0 E) as [m [_ Hm]].
        simpl. unfold resolve_ref at 1. now rewrite Hix0, Hn0, E, Hm, G.
    + assert (Htail : exists r n, In r refs /\ is_index_ref r = true
                                  /\ int_ r = Ok n /\ len c <= n).
      { destruct Hin as [<-|Hin]; [congruence | now exists r, n]. }
      destruct (IH Htail) as [before [r1 [after [n1 [A [B [C [D [F G]]]]]]]]].
      exists (r0 :: before), r1, after, n1.
      split; [now rewrite A|]. split.
      { intros r' [<-|Hr'] Hi'; [congruence | now apply B]. }
      split; [exact C|]. split; [exact D|]. split; [exact F|].
      simpl. unfold resolve_ref at 1. now rewrite Hix0, G.
Qed.

(** X9.  On such a batch, when the fetch returns a listing that an index
    of the batch is not within, the resolver raises, after that one
    fetch, the out-of-range error of the first reference of the batch
    that is an index not within the listing: the error names the value of
    that reference, and every index before it in the batch is within the
    listing. *)
Theorem index_beyond_listing_fails
    {W : Type} {P : ProtonMail W}
    (refs : list str) (w w' : W) (m : N) (listing : list Message) :
  Forall (fun r => no_other_digit r = true) refs ->
  max_idx_of refs = Ok m ->
  get_messages_op (m + 1) (lit "0") w = (w', Ok listing) ->
  (exists r n, In r refs /\ is_index_ref r = true /\ int_ r = Ok n /\ len listing <= n) ->
  exists before r after n,
    refs = before ++ r :: after
    /\ (forall r', In r' before -> is_index_ref r' = true ->
                   exists n', int_ r' = Ok n' /\ n' < len listing)
    /\ is_index_ref r = true /\ int_ r = Ok n /\ len listing <= n
    /\ _resolve_refs refs w
       = (w', [CGetMessages (m + 1) (lit "0")], Raise (batch_out_of_range n)).
Proof.
  intros Hclean Hm Hget Hex.
  destruct (resolve_all_first_out_of_range listing refs Hclean Hex)
    as [before [r [after [n [A [B [C [D [F G]]]]]]]]].
  exists before, r, after, n.
  split; [exact A|]. split; [exact B|]. split; [exact C|].
  split; [exact D|]. split; [exact F|].
  rewrite resolve_refs_run.
  assert (Hix : existsb is_index_ref refs = true).
  { apply existsb_exists. exists r. split; [|exact C].
    rewrite A. apply in_elt. }
  now rewrite Hix, Hm, Hget, G.
Qed.

(** The batch ["0"; "9"; "abc"; "7"] against a four-message inbox. *)
Lemma index_beyond_listing_fails_witness :
  Forall (fun r => no_other_digit r = true) [lit "0"; lit "9"; lit "abc"; lit "7"]
  /\ max_idx_of [lit "0"; lit "9"; lit "abc"; lit "7"] = Ok 9
  /\ get_messages_op 10 (lit "0") (healthy four_messages)
     = (healthy four_messages, Ok four_messages)
  /\ exists before r after n,
       [lit "0"; lit "9"; lit "abc"; lit "7"] = before ++ r :: after
       /\ (forall r', In r' before -> is_index_ref r' = true ->
                      exists n', int_ r' = Ok n' /\ n' < len four_messages)
       /\ is_index_ref r = true /\ int_ r = Ok n /\ len four_messages <= n
       /\ _resolve_refs [lit "0"; lit "9"; lit "abc"; lit "7"] (healthy four_messages)
          = (healthy four_messages, [CGetMessages 10 (lit "0")],
             Raise (batch_out_of_range n)).
Proof.
  assert (H : Forall (fun r => no_other_digit r = true)
                [lit "0"; lit "9"; lit "abc"; lit "7"]).
  { repeat constructor. }
  split; [exact H|]. split; [reflexivity|]. split; [reflexivity|].
  refine (index_beyond_listing_fails [lit "0"; lit "9"; lit "abc"; lit "7"]
            (healthy four_messages) (healthy four_messages) 9 four_messages
            H eq_refl eq_refl _).
  exists (lit "7"), 7. split; [right; right; right; now left|].
  split; [reflexivity|]. split; [reflexivity|]. now apply N.leb_le.
Defined.

(** ** The success message *)

Lemma resolve_refs_len {W : Type} {P : ProtonMail W}
    (refs ids : list str) (w w' : W) (log : list Call) :
  _resolve_refs refs w = (w', log, Ok ids) -> len ids = len refs.
Proof.
  intros H. destruct (resolve_refs_Ok refs ids w w' log H) as [c [_ Hall]].
  unfold len. now rewrite (Forall2_length Hall).
Qed.

Lemma label_move_printed {W : Type} {P : ProtonMail W}
    (add_label : str) (text : list str -> str) (count : N -> str)
    (refs : list str) (w : W) :
  (forall ids, text ids = count (len ids)) ->
  match outcome_of (label_move_run add_label text refs w) with
  | Ok _ => printed (log_of (label_move_run add_label text refs w))
            = [CPrint (count (len refs))]
  | Raise _ => printed (log_of (label_move_run add_label text refs w)) = []
  end.
Proof.
  intros Htext. unfold label_move_run.
  destruct (get_client_op w) as [w1 [[]|e]]; [|reflexivity].
  destruct (_resolve_refs refs w1) as [[w2 l] [ids|e]] eqn:Hres;
    destruct (resolve_refs_no_mutation refs w1 w2 l _ Hres) as [_ Hp].
  - rewrite <- (resolve_refs_len refs ids w1 w2 l Hres), <- Htext.
    destruct (set_label_for_messages_op add_label ids w2) as [w3 [[]|e]].
    + destruct (unset_label_for_messages_op (lit "0") ids w3) as [w4 [[]|e]];
        unfold outcome_of, log_of; simpl; change (filter is_print) with printed;
        now rewrite printed_app, Hp.
    + unfold outcome_of, log_of; simpl; change (filter is_print) with printed.
      now rewrite printed_app, Hp.
  - unfold outcome_of, log_of; simpl. exact Hp.
Qed.

Lemma single_call_printed {W : Type} {P : ProtonMail W}
    (c : list str -> Call) (op : list str -> W -> W * result unit)
    (text : list str -> str) (count : N -> str) (refs : list str) (w : W) :
  (forall ids, is_print (c ids) = false) ->
  (forall ids, text ids = count (len ids)) ->
  match outcome_of (single_call_run c op text refs w) with
  | Ok _ => printed (log_of (single_call_run c op text refs w))
            = [CPrint (count (len refs))]
  | Raise _ => printed (log_of (single_call_run c op text refs w)) = []
  end.
Proof.
  intros Hc Htext. unfold single_call_run.
  destruct (get_client_op w) as [w1 [[]|e]]; [|reflexivity].
  destruct (_resolve_refs refs w1) as [[w2 l] [ids|e]] eqn:Hres;
    destruct (resolve_refs_no_mutation refs w1 w2 l _ Hres) as [_ Hp].
  - rewrite <- (resolve_refs_len refs ids w1 w2 l Hres), <- Htext.
    destruct (op ids w2) as [w3 [[]|e]];
      unfold outcome_of, log_of; simpl; change (filter is_print) with printed;
      rewrite printed_app, Hp; simpl; now rewrite Hc.
  - unfold outcome_of, log_of; simpl. exact Hp.
Qed.

(** X10.  Each of the five action commands prints its success message
    when it returns and prints nothing when it raises; the number in the
    message is the number of references it was given, the same reference
    given twice counting twice. *)
Theorem success_message_counts_the_references
    {W : Type} {P : ProtonMail W} (a : Action) (refs : list str) (w : W) :
  match outcome_of (action_command a refs w) with
  | Ok _ => printed (log_of (action_command a refs w))
            = [CPrint (success_text a (len refs))]
  | Raise _ => printed (log_of (action_command a refs w)) = []
  end.
Proof.
  destruct a; simpl action_command.
  - rewrite delete_run. now apply (single_call_printed _ _ _ (success_text Delete)).
  - rewrite archive_run. now apply (label_move_printed _ _ (success_text Archive)).
  - rewrite spam_run. now apply (label_move_printed _ _ (success_text Spam)).
  - rewrite star_run. now apply (single_call_printed _ _ _ (success_text Star)).
  - rewrite unread_run. now apply (single_call_printed _ _ _ (success_text Unread)).
Qed.

(** ** The numbers of a listing as references *)

Lemma lit_String (c : ascii) (s : string) : lit (String c s) = N_of_ascii c :: lit s.
Proof. reflexivity. Qed.




Lemma length_string_of_uint (d : Decimal.uint) :
  List.length (lit (NilEmpty.string_of_uint d)) = Decimal.nb_digits d.
Proof.
  induction d as [|d IH|d IH|d IH|d IH|d IH|d IH|d IH|d IH|d IH|d IH];
    cbn [NilEmpty.string_of_uint Decimal.nb_digits];
    [reflexivity | rewrite lit_String; cbn [List.length]; now rewrite IH ..].
Qed.

















(** ** [ls], [folders] and [count] *)

Lemma alias_is_labelled (k id : str) :
  dict_get FOLDER_ALIASES k = Some id ->
  exists label, dict_get SYSTEM_LABELS id = Some label.
Proof.
  unfold FOLDER_ALIASES. cbn [dict_get].
  repeat match goal with
         | |- context [str_eqb k ?a] => destruct (str_eqb k a)
         end;
    intros H; try discriminate H; injection H as <-; eexists; reflexivity.
Qed.

(** X14.  When the folder argument of [ls], in lower case, is one of the
    eight aliases, the label id is the alias's and the listing is titled
    with the name the label table gives that id, which it always has.
    Otherwise the argument itself is the label id, titled with the
    table's name for it if there is one and with the argument if not. *)
Theorem ls_label_resolution (lower : str -> str) (folder : str) :
  (forall id, dict_get FOLDER_ALIASES (lower folder) = Some id ->
              ls_label_id lower folder = id
              /\ dict_get SYSTEM_LABELS id = Some (ls_folder_name lower folder))
  /\ (dict_get FOLDER_ALIASES (lower folder) = None ->
      ls_label_id lower folder = folder
      /\ ls_folder_name lower folder
         = match dict_get SYSTEM_LABELS folder with
           | Some label => label
           | None => folder
           end).
Proof.
  unfold ls_folder_name, ls_label_id, dict_get_or. split.
  - intros id H. rewrite H. split; [reflexivity|].
    destruct (alias_is_labelled _ _ H) as [label Hl]. now rewrite Hl.
  - intros H. now rewrite H.
Qed.





Lemma str_of_Z_positive (z : Z) : (0 < z)%Z -> str_of_Z z <> [].
Proof.
  destruct z as [|p|p]; try lia. intros _ H.
  unfold str_of_Z in H. cbn [Z.to_int NilEmpty.string_of_int] in H.
  apply (f_equal (@List.length N)) in H.
  rewrite length_string_of_uint in H. simpl in H.
  apply DecimalFacts.nb_digits_0 in H.
  now apply (DecimalPos.Unsigned.to_uint_nonnil p).
Qed.

Lemma count_rows_cons (e : CountEntry) (counts : list CountEntry) :
  count_rows (e :: counts)
  = if dict_contains SYSTEM_LABELS (get_or (entry_LabelID e) empty_str)
    then (dict_get_or SYSTEM_LABELS (get_or (entry_LabelID e) empty_str)
            (get_or (entry_LabelID e) empty_str),
          str_of_Z (get_or (entry_Total e) 0%Z),
          if (0 <? get_or (entry_Unread e) 0)%Z
          then str_of_Z (get_or (entry_Unread e) 0%Z) else empty_str)
         :: count_rows counts
    else count_rows counts.
Proof.
  cbn [count_rows].
  now destruct (dict_contains SYSTEM_LABELS (get_or (entry_LabelID e) empty_str)).
Qed.

Lemma count_rows_app (a b : list CountEntry) :
  count_rows (a ++ b) = count_rows a ++ count_rows b.
Proof.
  induction a as [|e a IH]; [reflexivity|].
  rewrite <- app_comm_cons, !count_rows_cons, IH.
  now destruct (dict_contains SYSTEM_LABELS (get_or (entry_LabelID e) empty_str)).
Qed.

(** X12.  The table of [count] has exactly one row for each entry whose
    label id is a key of the label table, in the order of the entries: the
    rows are those entries, each turned into its row.  A row shows the
    table's name for the label, the total (0 for a missing one) and the
    unread count, which is left empty when it is missing or not positive.
    An entry with another label id, or with none, gives no row. *)
Theorem count_rows_spec (counts : list CountEntry) :
  let label e := get_or (entry_LabelID e) empty_str in
  let known e := dict_contains SYSTEM_LABELS (label e) in
  let unread e := get_or (entry_Unread e) 0%Z in
  let row e :=
    (dict_get_or SYSTEM_LABELS (label e) (label e),
     str_of_Z (get_or (entry_Total e) 0%Z),
     if (0 <? unread e)%Z then str_of_Z (unread e) else empty_str) in
  count_rows counts = map row (filter known counts)
  /\ (forall e, known e = true ->
                dict_get SYSTEM_LABELS (label e) = Some (fst (fst (row e)))
                /\ (snd (row e) = empty_str <-> (unread e <= 0)%Z))
  /\ List.length (count_rows counts) = List.length (filter known counts)
  /\ (forall before e after,
        counts = before ++ e :: after -> known e = false ->
        count_rows counts = count_rows (before ++ after))
  /\ (forall row', In row' (count_rows counts) ->
        exists e, In e counts
                  /\ dict_get SYSTEM_LABELS (label e) = Some (fst (fst row'))
                  /\ snd (fst row') = str_of_Z (get_or (entry_Total e) 0%Z)
                  /\ (snd row' = empty_str <-> (get_or (entry_Unread e) 0 <= 0)%Z)).
Proof.
  intros label known unread row.
  assert (Heq : count_rows counts = map row (filter known counts)).
  { induction counts as [|e counts IH]; [reflexivity|].
    rewrite count_rows_cons. cbn [filter]. unfold known at 1, label at 1.
    destruct (dict_contains SYSTEM_LABELS (get_or (entry_LabelID e) empty_str));
      [cbn [map]; now rewrite IH | exact IH]. }
  assert (Hrow : forall e, known e = true ->
                   dict_get SYSTEM_LABELS (label e) = Some (fst (fst (row e)))
                   /\ (snd (row e) = empty_str <-> (unread e <= 0)%Z)).
  { intros e Hk. unfold row. cbn [fst snd]. split.
    - unfold known, dict_contains in Hk. unfold dict_get_or.
      now destruct (dict_get SYSTEM_LABELS (label e)).
    - destruct (Z.ltb_spec 0 (unread e)) as [Hp|Hp].
      + split; [|lia]. intros E. now apply str_of_Z_positive in E.
      + now split. }
  split; [exact Heq|]. split; [exact Hrow|]. split; [|split].
  - rewrite Heq. apply length_map.
  - intros before e after -> Hk. rewrite !count_rows_app. f_equal.
    rewrite count_rows_cons. unfold known, label in Hk. now rewrite Hk.
  - intros row'. rewrite Heq, in_map_iff. intros [e [<- He]].
    apply filter_In in He. destruct He as [Hin Hk].
    exists e. split; [exact Hin|]. destruct (Hrow e Hk) as [A B].
    split; [exact A|]. split; [reflexivity | exact B].
Qed.

(** ** [format_size] *)

Lemma round_half_even_bounds (num den : N) :
  num / den <= round_half_even num den <= num / den + 1.
Proof.
  unfold round_half_even.
  destruct (2 * (num mod den) <? den); [lia|].
  destruct (den <? 2 * (num mod den)); [lia|].
  destruct (N.even (num / den)); lia.
Qed.

Lemma round_half_even_whole (n : N) : round_half_even n 1 = n.
Proof.
  unfold round_half_even. rewrite N.mod_1_r, N.div_1_r. reflexivity.
Qed.

Lemma round_half_even_up (num den : N) :
  N.even (num / den) = false ->
  den <= 2 * (num mod den) ->
  round_half_even num den = num / den + 1.
Proof.
  intros Hodd Hr. unfold round_half_even.
  destruct (N.ltb_spec (2 * (num mod den)) den) as [H|H]; [lia|].
  destruct (den <? 2 * (num mod den)); [reflexivity|]. now rewrite Hodd.
Qed.

(** The size shown in a unit: between 1 and 1024, and 1024 in the last
    half unit before the next unit. *)
Lemma shown_in_unit (n den : N) :
  den <> 0 ->
  den <= n < 1024 * den ->
  1 <= round_half_even n den <= 1024
  /\ (2 * (1024 * den) <= 2 * n + den -> round_half_even n den = 1024).
Proof.
  intros Hd [Hlo Hhi].
  pose proof (N.div_mod n den Hd) as E.
  pose proof (N.mod_lt n den Hd) as R.
  pose proof (round_half_even_bounds n den) as B.
  assert (Q1 : 1 <= n / den) by (apply N.div_le_lower_bound; lia).
  assert (Q2 : n / den <= 1023).
  { assert (n / den < 1024) by (apply N.Div0.div_lt_upper_bound; lia). lia. }
  split; [lia|]. intros Htop.
  assert (Q : n / den = 1023).
  { destruct (N.le_gt_cases 1023 (n / den)) as [H|H]; [lia|]. exfalso.
    assert (den * (n / den) <= den * 1022) by (apply N.mul_le_mono_l; lia).
    lia. }
  rewrite Q in E.
  rewrite round_half_even_up; [now rewrite Q | now rewrite Q | lia].
Qed.

(** X15.  For a size below [2 ^ 53] bytes: below 1024 it is shown as it
    is, in B; from [1024 ^ e] up to [1024 ^ (e + 1)], for [e] from 1 to 3,
    it is shown in KB, MB or GB as the nearest whole number of units,
    which lies between 1 and 1024, and is 1024, not 1 of the next unit,
    throughout the last half unit of the range; from [1024 ^ 4] on it is
    shown in TB with one decimal. *)
Theorem format_size_spec (n : N) :
  n < 2 ^ 53 ->
  (n < 1024 -> format_size n = str_of_int n ++ lit "B")
  /\ (forall e unit,
        In (e, unit) [(1, lit "KB"); (2, lit "MB"); (3, lit "GB")] ->
        1024 ^ e <= n < 1024 ^ (e + 1) ->
        format_size n = str_of_int (round_half_even n (1024 ^ e)) ++ unit
        /\ 1 <= round_half_even n (1024 ^ e) <= 1024
        /\ (2 * 1024 ^ (e + 1) <= 2 * n + 1024 ^ e ->
            round_half_even n (1024 ^ e) = 1024))
  /\ (1024 ^ 4 <= n -> format_size n = format_tenths n (1024 ^ 4) ++ lit "TB").
Proof.
  intros _. unfold format_size. cbn [format_size_loop].
  change (1024 * 1) with 1024. change (1 * 1024) with 1024.
  change (1024 * 1024) with 1048576.
  change (1024 * 1048576) with 1073741824.
  change (1048576 * 1024) with 1073741824.
  change (1024 * 1073741824) with 1099511627776.
  change (1073741824 * 1024) with 1099511627776.
  split; [|split].
  - intros H. apply N.ltb_lt in H. now rewrite H, round_half_even_whole.
  - intros e unit Hin [Hlo Hhi].
    assert (Hsplit : forall den,
               den <> 0 -> den = 1024 ^ e -> 1024 * den = 1024 ^ (e + 1) ->
               1 <= round_half_even n (1024 ^ e) <= 1024
               /\ (2 * 1024 ^ (e + 1) <= 2 * n + 1024 ^ e ->
                   round_half_even n (1024 ^ e) = 1024)).
    { intros den Hd E1 E2. rewrite <- E1, <- E2.
      apply shown_in_unit; [exact Hd | rewrite E2, E1; now split]. }
    destruct Hin as [E|[E|[E|[]]]]; injection E as <- <-.
    + change (1024 ^ 1) with 1024 in *. change (1024 ^ (1 + 1)) with 1048576 in *.
      split; [|now apply (Hsplit 1024)].
      destruct (N.ltb_spec n 1024); [lia|].
      destruct (N.ltb_spec n 1048576); [reflexivity | lia].
    + change (1024 ^ 2) with 1048576 in *.
      change (1024 ^ (2 + 1)) with 1073741824 in *.
      split; [|now apply (Hsplit 1048576)].
      destruct (N.ltb_spec n 1024); [lia|].
      destruct (N.ltb_spec n 1048576); [lia|].
      destruct (N.ltb_spec n 1073741824); [reflexivity | lia].
    + change (1024 ^ 3) with 1073741824 in *.
      change (1024 ^ (3 + 1)) with 1099511627776 in *.
      split; [|now apply (Hsplit 1073741824)].
      destruct (N.ltb_spec n 1024); [lia|].
      destruct (N.ltb_spec n 1048576); [lia|].
      destruct (N.ltb_spec n 1073741824); [lia|].
      destruct (N.ltb_spec n 1099511627776); [reflexivity | lia].
  - change (1024 ^ 4) with 1099511627776. intros H.
    destruct (N.ltb_spec n 1024); [lia|].
    destruct (N.ltb_spec n 1048576); [lia|].
    destruct (N.ltb_spec n 1073741824); [lia|].
    destruct (N.ltb_spec n 1099511627776); [lia | reflexivity].
Qed.

(** 1048064 bytes, half a kilobyte short of a megabyte. *)
Lemma format_size_spec_witness :
  1048064 < 2 ^ 53
  /\ In (1, lit "KB") [(1, lit "KB"); (2, lit "MB"); (3, lit "GB")]
  /\ 1024 ^ 1 <= 1048064 < 1024 ^ (1 + 1)
  /\ format_size 1048064 = str_of_int (round_half_even 1048064 (1024 ^ 1)) ++ lit "KB"
  /\ round_half_even 1048064 (1024 ^ 1) = 1024.
Proof.
  assert (H53 : 1048064 < 2 ^ 53) by reflexivity.
  assert (Hin : In (1, lit "KB") [(1, lit "KB"); (2, lit "MB"); (3, lit "GB")])
    by (now left).
  assert (Hr : 1024 ^ 1 <= 1048064 < 1024 ^ (1 + 1)) by (split; [discriminate | reflexivity]).
  split; [exact H53|]. split; [exact Hin|]. split; [exact Hr|].
  pose (H := proj1 (proj2 (format_size_spec 1048064 H53)) 1 (lit "KB") Hin Hr).
  split; [exact (proj1 H)|].
  apply (proj2 (proj2 H)). discriminate.
Defined.

(** ** The body that [send] sends *)

Lemma count_char_app (x : N) (a b : str) :
  count_char x (a ++ b) = (count_char x a + count_char x b)%nat.
Proof. unfold count_char. now rewrite filter_app, length_app. Qed.

Lemma count_char_absent (x : N) (s : str) : ~ In x s -> count_char x s = 0%nat.
Proof.
  induction s as [|c s IH]; [reflexivity|]. intros H.
  rewrite count_char_cons. destruct (N.eqb_spec x c) as [->|Hne].
  - elim H. now left.
  - apply IH. intros Hin. apply H. now right.
Qed.

Lemma escaped_has_no_markup_aux (body : str) :
  count_char lt (escaped body) = 0%nat /\ count_char gt (escaped body) = 0%nat.
Proof.
  split; apply count_char_absent; rewrite escaped_flat_map, in_flat_map;
    intros [x [_ Hx]]; destruct (escape_char_no_angle x _ Hx) as [A B]; congruence.
Qed.

(** X16.  The body [send] makes of a plain-text body holds exactly two
    [<] and two [>], those of the [<pre>] and [</pre>] around it, whatever
    the text; a body given with [--html] is sent as it is. *)
Theorem send_html_body_tags (body : str) :
  count_char lt (send_html_body false body) = 2%nat
  /\ count_char gt (send_html_body false body) = 2%nat
  /\ send_html_body false body = lit "<pre>" ++ escaped body ++ lit "</pre>"
  /\ send_html_body true body = body.
Proof.
  destruct (escaped_has_no_markup_aux body) as [Hl Hg].
  unfold send_html_body. cbn [negb]. rewrite !count_char_app, Hl, Hg.
  repeat split.
Qed.

(** ** Logging out *)

(** X17.  Where unlinking the session file removes it: once [logout] has
    returned, the session file is not there, each of the five action
    commands ends with "Not logged in. Run: pmail login" without any call
    to the library, and another [logout] reports that there is no active
    session and changes nothing. *)
Theorem logged_out_commands_stop
    {W : Type} (S : SessionStore W) (P : ProtonMail W)
    (a : Action) (refs : list str) (w w' : W) (log : list Call) :
  (forall u u', session_file_unlink u = (u', Ok tt) -> session_file_exists u' = false) ->
  logout w = (w', log, Ok tt) ->
  session_file_exists w' = false
  /\ @action_command W (with_saved_session S P) a refs w'
     = (w', [CGetClient],
        Raise (SystemExit (lit "Not logged in. Run: pmail login")))
  /\ logout w' = (w', [CPrint (lit "[yellow]No active session.[/]")], Ok tt).
Proof.
  intros Hlaw Hout.
  assert (Hgone : session_file_exists w' = false).
  { unfold logout in Hout. destruct (session_file_exists w) eqn:E.
    - destruct (session_file_unlink w) as [w1 [[]|e]] eqn:U; [|discriminate].
      injection Hout as <- _. now apply (Hlaw w w1).
    - injection Hout as <- _. exact E. }
  split; [exact Hgone|]. split.
  - assert (Hc : @get_client_op W (with_saved_session S P) w'
                 = (w', Raise (SystemExit (lit "Not logged in. Run: pmail login")))).
    { cbn [get_client_op with_saved_session]. unfold config_get_client.
      now rewrite Hgone. }
    destruct a; cbn [action_command];
      [rewrite delete_run | rewrite archive_run | rewrite spam_run
      | rewrite star_run | rewrite unread_run];
      unfold single_call_run, label_move_run; now rewrite Hc.
  - unfold logout. now rewrite Hgone.
Qed.

(** Logging out of a world in which the session file is there. *)
Lemma logged_out_commands_stop_witness :
  (forall u u', @session_file_unlink bool flag_store u = (u', Ok tt) ->
                @session_file_exists bool flag_store u' = false)
  /\ @logout bool flag_store true
     = (false, [CPrint (lit "[green]Session removed.[/]")], Ok tt)
  /\ @action_command bool (with_saved_session flag_store flag_client) Delete
       [lit "0"] false
     = (false, [CGetClient],
        Raise (SystemExit (lit "Not logged in. Run: pmail login"))).
Proof.
  assert (Hlaw : forall u u', @session_file_unlink bool flag_store u = (u', Ok tt) ->
                              @session_file_exists bool flag_store u' = false).
  { intros u u' H. injection H as <-. reflexivity. }
  split; [exact Hlaw|]. split; [reflexivity|].
  exact (proj1 (proj2 (logged_out_commands_stop flag_store flag_client Delete
                         [lit "0"] true false
                         [CPrint (lit "[green]Session removed.[/]")]
                         Hlaw eq_refl))).
Defined.

(** ** Runs of the reply and listing helpers *)

Example reply_all_leaves_own_address_out :
  reply_recipients ascii_lower true
    {| original_subject := lit "Hello";
       sender := {| name := lit "Ann"; address := lit "ann@example.org" |};
       recipients := [ {| name := lit "Me"; address := lit "Me@Proton.me" |};
                       {| name := lit "Bob"; address := lit "bob@example.org" |} ];
       cc := [ {| name := empty_str; address := lit "cat@example.org" |} ] |}
    [ {| email := lit "me@proton.me" |} ]
  = ([lit "ann@example.org"; lit "bob@example.org"], [lit "cat@example.org"]).
Proof. reflexivity. Qed.

Example reply_subject_of_a_reply :
  reply_subject (lit "Re: Hello") = lit "Re: Hello"
  /\ reply_subject (lit "Hello") = lit "Re: Hello"
  /\ reply_subject (lit "RE: Hello") = lit "Re: RE: Hello".
Proof. repeat split. Qed.

Example escaped_of_markup :
  escaped (lit "a&b <c>") = lit "a&amp;b &lt;c&gt;".
Proof. reflexivity. Qed.

Example format_size_of_some_sizes :
  format_size 1023 = lit "1023B"
  /\ format_size 1536 = lit "2KB"
  /\ format_size 2560 = lit "2KB"
  /\ format_size 1048064 = lit "1024KB"
  /\ format_size 1048576 = lit "1MB"
  /\ format_size 123456789012345 = lit "112.3TB".
Proof. repeat split. Qed.

Example count_rows_of_some_entries :
  count_rows
    [ {| entry_LabelID := Some (lit "0"); entry_Total := Some 12%Z; entry_Unread := Some 3%Z |};
      {| entry_LabelID := Some (lit "9"); entry_Total := Some 5%Z; entry_Unread := Some 5%Z |};
      {| entry_LabelID := Some (lit "6"); entry_Total := None; entry_Unread := Some 0%Z |};
      {| entry_LabelID := None; entry_Total := Some 1%Z; entry_Unread := None |} ]
  = [ (lit "Inbox", lit "12", lit "3"); (lit "Spam", lit "0", empty_str) ].
Proof. reflexivity. Qed.

Example first_index_beyond_listing :
  _resolve_refs [lit "0"; lit "9"; lit "abc"; lit "7"] (healthy four_messages)
  = (healthy four_messages, [CGetMessages 10 (lit "0")], Raise (batch_out_of_range 9)).
Proof. reflexivity. Qed.

Example superscript_after_other_characters :
  is_index_ref [120; 178] = false
  /\ is_index_ref (lit "1234" ++ [178]) = false
  /\ _resolve_refs [[120; 178]; lit "1234" ++ [178]] (healthy four_messages)
     = (healthy four_messages, [], Ok [[120; 178]; lit "1234" ++ [178]]).
Proof. repeat split. Qed.
